(** * The Nouakchott places extractor: grid, search executor, collector,
      orchestrator and checkpoint store of [extract_places.py]

    A shallow embedding of [src/extract_places.py].  Python objects become
    records, [set] and [dict] become stdpp's [gset] and [gmap], methods of
    [PlacesExtractor] become computations in a state-and-exception monad over
    the extractor and its environment (remote API, clock, log, files). *)

From Stdlib Require Import ZArith QArith PrimFloat FloatOps SpecFloat Lia.
From stdpp Require Import gmap strings list fin_maps.

Local Open Scope Z_scope.

(** ** Python values *)

(** Exceptions the engine can meet.  [KeyboardInterrupt] derives from
    [BaseException] only, so an [except Exception] clause lets it through. *)
Inductive exn :=
  | ZeroDivisionError
  | ValueError
  | KeyError (key : string)
  | TypeError
  | IndexError
  | ApiError (reason : string)
  | Timeout
  | KeyboardInterrupt.

Definition is_Exception (e : exn) : bool :=
  match e with KeyboardInterrupt => false | _ => true end.

(** The outcome of running Python code: a value, a raised exception, or, for
    the [while True] loop of the executor only, a run that used up the page
    budget the model gave it. *)
Inductive result (A : Type) :=
  | Ok (a : A)
  | Raise (e : exn)
  | OutOfFuel.
Arguments Ok {A} a.
Arguments Raise {A} e.
Arguments OutOfFuel {A}.

(** Truthiness of an optional string ([if place_id], [if next_page_token],
    [if place_type]): [None] and the empty string are false. *)
Definition truthy (s : option string) : bool :=
  match s with
  | Some s => negb (String.eqb s "")
  | None => false
  end.

(** [float(n)] for a Python int: the correctly rounded binary64 value.
    CPython raises [OverflowError] from 2^1024 on; the conversion saturates
    to infinity there, a range no division count of a grid reaches. *)
Definition float_of_int (n : Z) : float :=
  SF2Prim (binary_normalize prec emax n 0 false).

(** [x / n] with a float [x] and an int [n]. *)
Definition float_div_int (x : float) (n : Z) : result float :=
  if n =? 0 then Raise ZeroDivisionError else Ok (x / float_of_int n)%float.

(** [range(n)] and [range(a, b)]. *)
Definition py_range (n : Z) : list Z := seqZ 0 n.
Definition py_range2 (a b : Z) : list Z := seqZ a (b - a).

(** [l[i]] with Python's negative indices. *)
Definition py_index {A} (l : list A) (i : Z) : result A :=
  let n := Z.of_nat (length l) in
  let j := if i <? 0 then i + n else i in
  if (j <? 0) || (n <=? j) then Raise IndexError
  else match l !! Z.to_nat j with
       | Some x => Ok x
       | None => Raise IndexError
       end.

(** ** Configuration *)

(** The fields of [Config] the engine reads.  Coordinates are binary64
    floats.  Delays are rationals: the only arithmetic on them is the
    doubling [delay *= 2], which is exact on binary floats. *)
Record Config := {
  API_KEY : string;
  BBOX_NORTH : float;
  BBOX_SOUTH : float;
  BBOX_EAST : float;
  BBOX_WEST : float;
  GRID_LAT_DIVISIONS : Z;
  GRID_LNG_DIVISIONS : Z;
  SEARCH_RADIUS_METERS : Z;
  PLACE_TYPES : list string;
  INCLUDE_GENERIC_SEARCH : bool;
  DELAY_BETWEEN_REQUESTS_SECONDS : Q;
  PAGINATION_DELAY_SECONDS : Q;
  MAX_RETRIES : Z;
  INITIAL_RETRY_DELAY_SECONDS : Q;
  ENABLE_CHECKPOINTING : bool;
  CHECKPOINT_INTERVAL : Z
}.

(** ** Data structures *)

Record Place := {
  place_id : string;
  name : string;
  types : list string;
  latitude : float;
  longitude : float
}.

Record GridCell := {
  row : Z;
  col : Z;
  center_lat : float;
  center_lng : float
}.

(** ** Grid generation *)

Definition result_bind {A B} (f : A → result B) (r : result A) : result B :=
  match r with
  | Ok a => f a
  | Raise e => Raise e
  | OutOfFuel => OutOfFuel
  end.

Global Instance result_ret : MRet result := λ A a, Ok a.
Global Instance result_mbind : MBind result := λ A B f r, result_bind f r.

(** The cell built by one pass of the inner loop body. *)
Definition grid_cell_at (config : Config) (lat_step lng_step : float)
    (row col : Z) : GridCell :=
  {| row := row;
     col := col;
     center_lat := (BBOX_SOUTH config + (float_of_int row + 0.5) * lat_step)%float;
     center_lng := (BBOX_WEST config + (float_of_int col + 0.5) * lng_step)%float |}.

Definition generate_grid (config : Config) : result (list GridCell) :=
  lat_step ← float_div_int (BBOX_NORTH config - BBOX_SOUTH config)%float
                           (GRID_LAT_DIVISIONS config);
  lng_step ← float_div_int (BBOX_EAST config - BBOX_WEST config)%float
                           (GRID_LNG_DIVISIONS config);
  mret (row ← py_range (GRID_LAT_DIVISIONS config);
        col ← py_range (GRID_LNG_DIVISIONS config);
        [grid_cell_at config lat_step lng_step row col]).

(** ** Remote API *)

(** A raw result of a nearby search: the keys [process_result] reads, each
    of which may be missing from the dictionary. *)
Record LatLng := { lat : option float; lng : option float }.
Record Geometry := { geo_location : option LatLng }.
Record RawResult := {
  raw_place_id : option string;
  raw_name : option string;
  raw_types : option (list string);
  raw_geometry : option Geometry
}.

(** The keyword arguments of one [places_nearby] call. *)
Record Request := {
  req_location : float * float;
  req_radius : Z;
  req_type : option string;
  req_page_token : option string
}.

Record Response := {
  status : option string;
  results : option (list RawResult);
  next_page_token : option string
}.

(** What the client does on one call: it returns a response or raises. *)
Inductive api_outcome :=
  | Responds (r : Response)
  | Fails (e : exn).

(** The client as seen by one process: the outcome of its [n]-th call
    (counted from 0) with the given arguments. *)
Definition Api := nat → Request → api_outcome.

(** ** Observable events *)

(** The three [time.sleep] call sites of the engine. *)
Inductive sleep_site :=
  | Cooldown    (* PAGINATION_DELAY_SECONDS, before a page token is used *)
  | RateLimit   (* DELAY_BETWEEN_REQUESTS_SECONDS *)
  | Backoff.    (* the retry delay *)

Inductive level := INFO | WARNING | ERROR.

(** Log lines; the progress lines at INFO and DEBUG level that read no
    fallible value are left out. *)
Inductive log_msg :=
  | ApiReturnedStatus (st : option string)
  | ApiErrorAttempt (attempt : Z) (e : exn)
  | MaxRetriesExceeded
  | PlaceWithoutPlaceId (nm : string)
  | CheckpointSaved
  | CheckpointLoaded (stamp : string) (resume_from : Z) (restored : nat)
  | FailedToLoadCheckpoint (e : exn)
  | FinalOutputSaved (total : nat)
  | CheckpointFileRemoved
  | ExtractionFinished
  | InterruptedByUser
  | FatalError (e : exn).

Inductive event :=
  | Called (q : Request)
  | Slept (site : sleep_site) (d : Q)
  | Logged (l : level) (m : log_msg).

(** ** Checkpoint file *)

(** The JSON documents the checkpoint file can hold, with every key
    optional, as a reader finds them. *)
Record PlaceDict := {
  d_place_id : option string;
  d_name : option string;
  d_types : option (list string);
  d_latitude : option float;
  d_longitude : option float
}.

Record CheckpointDict := {
  d_last_completed_cell_index : option Z;
  d_total_unique_places : option Z;
  d_total_api_calls : option Z;
  d_total_duplicates_skipped : option Z;
  d_timestamp : option string
}.

Record CheckpointData := {
  d_checkpoint : option CheckpointDict;
  d_seen_place_ids : option (list string);
  d_places : option (list PlaceDict)
}.

Inductive file :=
  | Absent                          (* os.path.exists is false *)
  | Unparseable                     (* json.load raises *)
  | Parsed (data : CheckpointData).

(** ** The extractor and its environment *)

Record PlacesExtractor := {
  seen_place_ids : gset string;
  places : gmap string Place;
  total_api_calls : Z;
  total_duplicates_skipped : Z;
  current_cell_index : Z
}.

(** [PlacesExtractor.__init__]. *)
Definition new_extractor : PlacesExtractor :=
  {| seen_place_ids := ∅; places := ∅; total_api_calls := 0;
     total_duplicates_skipped := 0; current_cell_index := 0 |}.

Record machine := {
  self : PlacesExtractor;
  clock : string;                          (* datetime.now().isoformat() *)
  calls_made : nat;                        (* calls this process has issued *)
  trace : list event;                      (* oldest first *)
  checkpoint_file : file;
  output_file : option (gmap string Place) (* the places written, unordered *)
}.

Definition with_self (f : PlacesExtractor → PlacesExtractor) (m : machine) : machine :=
  {| self := f (self m); clock := clock m; calls_made := calls_made m;
     trace := trace m; checkpoint_file := checkpoint_file m;
     output_file := output_file m |}.

Definition with_event (e : event) (m : machine) : machine :=
  {| self := self m; clock := clock m; calls_made := calls_made m;
     trace := trace m ++ [e]; checkpoint_file := checkpoint_file m;
     output_file := output_file m |}.

Definition with_call (q : Request) (m : machine) : machine :=
  {| self := self m; clock := clock m; calls_made := S (calls_made m);
     trace := trace m ++ [Called q]; checkpoint_file := checkpoint_file m;
     output_file := output_file m |}.

Definition with_checkpoint_file (f : file) (m : machine) : machine :=
  {| self := self m; clock := clock m; calls_made := calls_made m;
     trace := trace m; checkpoint_file := f; output_file := output_file m |}.

Definition with_output_file (o : gmap string Place) (m : machine) : machine :=
  {| self := self m; clock := clock m; calls_made := calls_made m;
     trace := trace m; checkpoint_file := checkpoint_file m;
     output_file := Some o |}.

Definition set_seen_place_ids (s : gset string) (x : PlacesExtractor) :=
  {| seen_place_ids := s; places := places x;
     total_api_calls := total_api_calls x;
     total_duplicates_skipped := total_duplicates_skipped x;
     current_cell_index := current_cell_index x |}.

Definition set_places (p : gmap string Place) (x : PlacesExtractor) :=
  {| seen_place_ids := seen_place_ids x; places := p;
     total_api_calls := total_api_calls x;
     total_duplicates_skipped := total_duplicates_skipped x;
     current_cell_index := current_cell_index x |}.

Definition set_total_api_calls (n : Z) (x : PlacesExtractor) :=
  {| seen_place_ids := seen_place_ids x; places := places x;
     total_api_calls := n;
     total_duplicates_skipped := total_duplicates_skipped x;
     current_cell_index := current_cell_index x |}.

Definition set_total_duplicates_skipped (n : Z) (x : PlacesExtractor) :=
  {| seen_place_ids := seen_place_ids x; places := places x;
     total_api_calls := total_api_calls x;
     total_duplicates_skipped := n;
     current_cell_index := current_cell_index x |}.

Definition set_current_cell_index (n : Z) (x : PlacesExtractor) :=
  {| seen_place_ids := seen_place_ids x; places := places x;
     total_api_calls := total_api_calls x;
     total_duplicates_skipped := total_duplicates_skipped x;
     current_cell_index := n |}.

(** ** The monad of methods *)

(** A computation over a state [S] that returns or raises; the state it
    reached is kept in both cases. *)
Definition M (S A : Type) : Type := S → result A * S.

Definition M_bind {S A B} (f : A → M S B) (c : M S A) : M S B :=
  λ s, match c s with
       | (Ok a, s') => f a s'
       | (Raise e, s') => (Raise e, s')
       | (OutOfFuel, s') => (OutOfFuel, s')
       end.

Global Instance M_mret S : MRet (M S) := λ A a s, (Ok a, s).
Global Instance M_mbind S : MBind (M S) := λ A B f c, M_bind f c.

Definition raise {S A} (e : exn) : M S A := λ s, (Raise e, s).
Definition out_of_fuel {S A} : M S A := λ s, (OutOfFuel, s).
Definition gets {S A} (f : S → A) : M S A := λ s, (Ok (f s), s).
Definition modify {S} (f : S → S) : M S unit := λ s, (Ok tt, f s).

(** A pure fallible step (a subscript, a division) inside a method. *)
Definition lift_result {S A} (r : result A) : M S A := λ s, (r, s).

(** [try: body except Exception as e: handler e]. *)
Definition try_except {S A} (body : M S A) (handler : exn → M S A) : M S A :=
  λ s, match body s with
       | (Raise e, s') => if is_Exception e then handler e s' else (Raise e, s')
       | other => other
       end.

(** [for x in l: body x]. *)
Fixpoint for_each {S A} (l : list A) (body : A → M S unit) : M S unit :=
  match l with
  | [] => mret tt
  | x :: l => body x ;; for_each l body
  end.

Definition log (l : level) (msg : log_msg) : M machine unit :=
  modify (with_event (Logged l msg)).

(** [time.sleep(d)]: a negative duration raises [ValueError]. *)
Definition sleep (site : sleep_site) (d : Q) : M machine unit :=
  if Qle_bool 0 d then modify (with_event (Slept site d)) else raise ValueError.

(** [self.gmaps.places_nearby] applied to the keyword arguments [q]. *)
Definition places_nearby (api : Api) (q : Request) : M machine Response :=
  λ m, match api (calls_made m) q with
       | Responds r => (Ok r, with_call q m)
       | Fails e => (Raise e, with_call q m)
       end.

(** ** Search executor *)

(** The local variables of [search_with_retry] that outlive one pass of its
    loops.  They are part of the state: what the [try] block assigned stays
    assigned when a later statement of the block raises. *)
Record frame := {
  all_results : list RawResult;
  page_token : option string;     (* the local next_page_token *)
  page_num : Z
}.

Definition new_frame : frame :=
  {| all_results := []; page_token := None; page_num := 0 |}.

(** A method step run from inside [search_with_retry]. *)
Definition inner {A} (c : M machine A) : M (frame * machine) A :=
  λ s, let (r, m) := c s.2 in (r, (s.1, m)).

(** Running the body of [search_with_retry] on fresh locals. *)
Definition with_frame {A} (f : frame) (c : M (frame * machine) A) : M machine A :=
  λ m, let (r, s) := c (f, m) in (r, s.2).

Definition frame_gets {A} (g : frame → A) : M (frame * machine) A :=
  gets (λ s, g s.1).

Definition frame_modify (g : frame → frame) : M (frame * machine) unit :=
  modify (λ s, (g s.1, s.2)).

(** The three assignments that follow a response. *)
Definition accept_page (response : Response) (f : frame) : frame :=
  {| all_results := all_results f ++ default [] (results response);
     page_token := next_page_token response;
     page_num := page_num f + 1 |}.

Definition build_kwargs (location : float * float) (radius : Z)
    (place_type next_page_token : option string) : Request :=
  {| req_location := location;
     req_radius := radius;
     req_type := if truthy place_type then place_type else None;
     req_page_token := if truthy next_page_token then next_page_token else None |}.

Definition success_status (st : option string) : bool :=
  bool_decide (st = Some "OK" ∨ st = Some "ZERO_RESULTS").

Definition count_api_call (x : PlacesExtractor) : PlacesExtractor :=
  set_total_api_calls (total_api_calls x + 1) x.

(** ** The Places service and its client *)

(** What the remote service does with a request: it answers with a body, of
    whatever status, or the request fails on the way. *)
Inductive service_outcome :=
  | Answers (body : Response)
  | Unreachable (e : exn).

Definition Service := nat → Request → service_outcome.

(** The exception [googlemaps.Client] raises for a body it does not hand
    over: [ApiError] with the status; for OVER_QUERY_LIMIT, which the client
    requests again by itself, [Timeout] once its own retry window has
    passed; a body without status fails at the subscript. *)
Definition status_error (st : option string) : exn :=
  match st with
  | None => KeyError "status"
  | Some st => if String.eqb st "OVER_QUERY_LIMIT" then Timeout else ApiError st
  end.

(** Modelled from the spec: [googlemaps.Client.places_nearby], which stands
    between the service and the executor, is a dependency that is not under
    src/.  The spec counts every status other than the two success statuses
    as a failed request; the library makes it one by raising: it hands over
    a body whose status is OK or ZERO_RESULTS and raises for every other
    status, so the executor meets such a status as an exception. *)
Definition client (service : Service) : Api :=
  λ n q, match service n q with
         | Answers body =>
             if success_status (status body) then Responds body
             else Fails (status_error (status body))
         | Unreachable e => Fails e
         end.

(** [googlemaps.Client(key=...)], of the same library: the constructor
    raises [ValueError] for a missing key and for one that does not start
    with AIza. *)
Definition Client (key : string) : result unit :=
  if String.prefix "AIza" key then Ok tt else Raise ValueError.

Section Executor.
Variable config : Config.
Variable api : Api.
Variable location : float * float.
Variable radius : Z.
Variable place_type : option string.

(** The [try] block.  It ends in [break] on both branches, so returning
    normally means leaving the retry loop. *)
Definition try_block : M (frame * machine) unit :=
  inner (modify (with_self count_api_call)) ;;
  token ← frame_gets page_token;
  response ← inner (places_nearby api (build_kwargs location radius place_type token));
  (if success_status (status response) then mret tt
   else inner (log WARNING (ApiReturnedStatus (status response)))) ;;
  frame_modify (accept_page response) ;;
  if truthy (next_page_token response) then
    inner (sleep Cooldown (PAGINATION_DELAY_SECONDS config)) ;;
    inner (sleep RateLimit (DELAY_BETWEEN_REQUESTS_SECONDS config))
  else mret tt.

(** How the retry loop was left. *)
Inductive loop_exit :=
  | Broke                              (* break: the page was fetched *)
  | Exhausted                          (* the loop condition became false *)
  | Returned (rs : list RawResult).    (* return all_results in the handler *)

(** [while retry_count < MAX_RETRIES], from the given values of
    [retry_count] and [delay].  [budget] bounds the passes; [MAX_RETRIES]
    passes are always enough. *)
Fixpoint retry_loop (budget : nat) (retry_count : Z) (delay : Q)
    : M (frame * machine) loop_exit :=
  if retry_count <? MAX_RETRIES config then
    match budget with
    | O => out_of_fuel
    | S budget =>
        try_except (try_block ;; mret Broke)
          (λ e,
             let retry_count := retry_count + 1 in
             inner (log WARNING (ApiErrorAttempt retry_count e)) ;;
             if MAX_RETRIES config <=? retry_count then
               inner (log ERROR MaxRetriesExceeded) ;;
               rs ← frame_gets all_results;
               mret (Returned rs)
             else
               inner (sleep Backoff delay) ;;
               retry_loop budget retry_count (delay * 2)%Q)
    end
  else mret Exhausted.

(** [while True], for at most [fuel] pages. *)
Fixpoint page_loop (fuel : nat) : M (frame * machine) (list RawResult) :=
  match fuel with
  | O => out_of_fuel
  | S fuel =>
      exit ← retry_loop (Z.to_nat (MAX_RETRIES config)) 0
               (INITIAL_RETRY_DELAY_SECONDS config);
      match exit with
      | Returned rs => mret rs
      | Broke | Exhausted =>
          token ← frame_gets page_token;
          if truthy token then page_loop fuel else frame_gets all_results
      end
  end.

Definition search_with_retry (fuel : nat) : M machine (list RawResult) :=
  with_frame new_frame (page_loop fuel).
End Executor.

(** ** Deduplicating collector *)

Definition place_of_result (place_id : string) (result : RawResult) : Place :=
  let geometry := default {| geo_location := None |} (raw_geometry result) in
  let location := default {| lat := None; lng := None |} (geo_location geometry) in
  {| place_id := place_id;
     name := default "" (raw_name result);
     types := default [] (raw_types result);
     latitude := default 0%float (lat location);
     longitude := default 0%float (lng location) |}.

Definition count_duplicate (x : PlacesExtractor) : PlacesExtractor :=
  set_total_duplicates_skipped (total_duplicates_skipped x + 1) x.

Definition add_place (place : Place) (x : PlacesExtractor) : PlacesExtractor :=
  set_places (<[place_id place := place]> (places x))
    (set_seen_place_ids ({[place_id place]} ∪ seen_place_ids x) x).

Definition process_result (result : RawResult) : M machine unit :=
  let place_id := raw_place_id result in
  if negb (truthy place_id) then
    log WARNING (PlaceWithoutPlaceId (default "unknown" (raw_name result)))
  else
    let place_id := default "" place_id in
    seen ← gets (λ m, seen_place_ids (self m));
    if bool_decide (place_id ∈ seen) then
      modify (with_self count_duplicate)
    else
      modify (with_self (add_place (place_of_result place_id result))).

(** ** Checkpoint store *)

Definition to_dict (p : Place) : PlaceDict :=
  {| d_place_id := Some (place_id p);
     d_name := Some (name p);
     d_types := Some (types p);
     d_latitude := Some (latitude p);
     d_longitude := Some (longitude p) |}.

(** [d[key]] on a parsed JSON object. *)
Definition getitem {A} (key : string) (v : option A) : result A :=
  match v with
  | Some a => Ok a
  | None => Raise (KeyError key)
  end.

(** [Place] built from the keys of [place_dict]: a missing field is a
    [TypeError]. *)
Definition Place_of_dict (d : PlaceDict) : result Place :=
  match d_place_id d, d_name d, d_types d, d_latitude d, d_longitude d with
  | Some i, Some n, Some t, Some la, Some lo =>
      Ok {| place_id := i; name := n; types := t; latitude := la; longitude := lo |}
  | _, _, _, _, _ => Raise TypeError
  end.

(** The values of the [places] dictionary. *)
Definition places_values (x : PlacesExtractor) : list Place :=
  (map_to_list (places x)).*2.

Definition checkpoint_data (x : PlacesExtractor) (stamp : string) : CheckpointData :=
  {| d_checkpoint := Some
       {| d_last_completed_cell_index := Some (current_cell_index x);
          d_total_unique_places := Some (Z.of_nat (size (places x)));
          d_total_api_calls := Some (total_api_calls x);
          d_total_duplicates_skipped := Some (total_duplicates_skipped x);
          d_timestamp := Some stamp |};
     d_seen_place_ids := Some (elements (seen_place_ids x));
     d_places := Some (to_dict <$> places_values x) |}.

Definition save_checkpoint : M machine unit :=
  modify (λ m, with_checkpoint_file (Parsed (checkpoint_data (self m) (clock m))) m) ;;
  log INFO CheckpointSaved.

(** [json.load(f)] on the checkpoint file. *)
Definition json_load (f : file) : result CheckpointData :=
  match f with
  | Parsed data => Ok data
  | Unparseable | Absent => Raise ValueError
  end.

Definition store_place (place : Place) (x : PlacesExtractor) : PlacesExtractor :=
  set_places (<[place_id place := place]> (places x)) x.

Definition load_checkpoint : M machine (option Z) :=
  f ← gets checkpoint_file;
  match f with
  | Absent => mret None
  | _ =>
      try_except
        (checkpoint_data ← lift_result (json_load f);
         checkpoint ← lift_result (getitem "checkpoint" (d_checkpoint checkpoint_data));
         ids ← lift_result (getitem "seen_place_ids" (d_seen_place_ids checkpoint_data));
         modify (with_self (set_seen_place_ids (list_to_set ids))) ;;
         dicts ← lift_result (getitem "places" (d_places checkpoint_data));
         for_each dicts (λ place_dict,
           place ← lift_result (Place_of_dict place_dict);
           modify (with_self (store_place place))) ;;
         calls ← lift_result (getitem "total_api_calls" (d_total_api_calls checkpoint));
         modify (with_self (set_total_api_calls calls)) ;;
         dups ← lift_result (getitem "total_duplicates_skipped"
                                     (d_total_duplicates_skipped checkpoint));
         modify (with_self (set_total_duplicates_skipped dups)) ;;
         last ← lift_result (getitem "last_completed_cell_index"
                                     (d_last_completed_cell_index checkpoint));
         let resume_from := last + 1 in
         stamp ← lift_result (getitem "timestamp" (d_timestamp checkpoint));
         restored ← gets (λ m, size (places (self m)));
         log INFO (CheckpointLoaded stamp resume_from restored) ;;
         mret (Some resume_from))
        (λ e, log ERROR (FailedToLoadCheckpoint e) ;; mret None)
  end.

(** The final output holds every collected place; its ordering by name is
    not modelled. *)
Definition save_final_output : M machine unit :=
  modify (λ m, with_output_file (places (self m)) m) ;;
  total ← gets (λ m, size (places (self m)));
  log INFO (FinalOutputSaved total).

(** ** Extraction orchestrator *)

Section Orchestrator.
Variable config : Config.
Variable api : Api.
Variable fuel : nat.   (* pages allowed to one search *)

Definition search_types : list (option string) :=
  (Some <$> PLACE_TYPES config)
    ++ (if INCLUDE_GENERIC_SEARCH config then [None] else []).

Definition search_grid_cell (cell : GridCell) : M machine unit :=
  let location := (center_lat cell, center_lng cell) in
  let radius := SEARCH_RADIUS_METERS config in
  for_each search_types (λ place_type,
    results ← search_with_retry config api location radius place_type fuel;
    for_each results process_result ;;
    sleep RateLimit (DELAY_BETWEEN_REQUESTS_SECONDS config)).

(** [(idx + 1) % CHECKPOINT_INTERVAL == 0], evaluated only when
    checkpointing is enabled. *)
Definition checkpoint_due (idx : Z) : M machine bool :=
  if ENABLE_CHECKPOINTING config then
    if CHECKPOINT_INTERVAL config =? 0 then raise ZeroDivisionError
    else mret ((idx + 1) `mod` CHECKPOINT_INTERVAL config =? 0)
  else mret false.

Definition extract_all_places (grid : list GridCell) (start_from : Z) : M machine unit :=
  let total_cells := Z.of_nat (length grid) in
  for_each (py_range2 start_from total_cells) (λ idx,
    cell ← lift_result (py_index grid idx);
    modify (with_self (set_current_cell_index idx)) ;;
    search_grid_cell cell ;;
    due ← checkpoint_due idx;
    if (due : bool) then save_checkpoint else mret tt).

(** [except KeyboardInterrupt] and [except Exception] of [main]: both save
    a checkpoint and exit with status 1. *)
Definition on_interrupt (e : exn) : M machine Z :=
  (if is_Exception e then log ERROR (FatalError e)
   else log WARNING InterruptedByUser) ;;
  save_checkpoint ;;
  mret 1.

Definition remove_checkpoint_file : M machine unit :=
  f ← gets checkpoint_file;
  match f with
  | Absent => mret tt
  | _ => modify (with_checkpoint_file Absent) ;; log INFO CheckpointFileRemoved
  end.

(** The [try] statement of [main]: either handler takes what the body
    raised. *)
Definition try_main (body : M machine Z) : M machine Z :=
  λ m, match body m with
       | (Raise e, m') => on_interrupt e m'
       | other => other
       end.

(** The test of [main] on the API key: the placeholder or no key. *)
Definition api_key_missing : bool :=
  bool_decide (API_KEY config = "YOUR_API_KEY_HERE")
  || negb (truthy (Some (API_KEY config))).

(** [main]; the value is the exit status.  Without an API key it prints
    what to do and exits with status 1.  The grid is generated before the
    extractor is created, and both before the [try], as is the loading of
    the checkpoint.  The log file is taken to be writable. *)
Definition main : M machine Z :=
  if api_key_missing then mret 1
  else
  grid ← lift_result (generate_grid config);
  lift_result (Client (API_KEY config)) ;;
  modify (with_self (λ _, new_extractor)) ;;
  resume_from ←
    (if ENABLE_CHECKPOINTING config then
       loaded_resume ← load_checkpoint;
       mret (default 0 loaded_resume)
     else mret 0);
  try_main
    (extract_all_places grid resume_from ;;
     save_final_output ;;
     (if ENABLE_CHECKPOINTING config then remove_checkpoint_file else mret tt) ;;
     log INFO ExtractionFinished ;;
     mret 0).
End Orchestrator.

(** A process started on the files another left behind. *)
Definition boot (stamp : string) (ckpt : file) (out : option (gmap string Place)) : machine :=
  {| self := new_extractor; clock := stamp; calls_made := 0; trace := [];
     checkpoint_file := ckpt; output_file := out |}.

(** Skipping [n] further duplicates. *)
Definition count_duplicates (n : nat) (x : PlacesExtractor) : PlacesExtractor :=
  set_total_duplicates_skipped (total_duplicates_skipped x + Z.of_nat n) x.

(** ** Well-formed collector state *)

(** Every Place is stored under its own id: what [process_result] and
    [load_checkpoint] both write. *)
Definition keyed_by_id (x : PlacesExtractor) : Prop :=
  map_Forall (λ k p, place_id p = k) (places x).

(** The dictionary after [self.places[place.place_id] = place] for each
    place of a list, in order. *)
Definition restore (ps : list Place) (acc : gmap string Place) : gmap string Place :=
  foldl (λ acc p, <[place_id p := p]> acc) acc ps.

(** The [last_completed_cell_index] a checkpoint file records. *)
Definition saved_last_completed (f : file) : option Z :=
  match f with
  | Parsed data => d_checkpoint data ≫= d_last_completed_cell_index
  | Absent | Unparseable => None
  end.

(** ** Observations on a run *)

(** The machine after [n] more API calls and the events [evs]. *)
Definition after (m : machine) (evs : list event) (n : nat) : machine :=
  {| self := set_total_api_calls (total_api_calls (self m) + Z.of_nat n) (self m);
     clock := clock m;
     calls_made := n + calls_made m;
     trace := trace m ++ evs;
     checkpoint_file := checkpoint_file m;
     output_file := output_file m |}.

(** The requests issued and the delays slept at one call site, in order. *)
Definition calls_of (evs : list event) : list Request :=
  omap (λ ev, match ev with Called q => Some q | _ => None end) evs.

Definition same_site (a b : sleep_site) : bool :=
  match a, b with
  | Cooldown, Cooldown | RateLimit, RateLimit | Backoff, Backoff => true
  | _, _ => false
  end.

Definition sleeps_of (site : sleep_site) (evs : list event) : list Q :=
  omap (λ ev, match ev with
              | Slept s d => if same_site s site then Some d else None
              | _ => None
              end) evs.

(** The warning a response with an unexpected status leaves in the log. *)
Definition status_warning (response : Response) : list event :=
  if success_status (status response) then []
  else [Logged WARNING (ApiReturnedStatus (status response))].

(** What [n] failed attempts in a row leave behind, the last one giving up:
    the attempts are numbered from [retry_count + 1] and the first backoff
    is [delay]. *)
Fixpoint failing_events (q : Request) (e : exn) (n : nat) (retry_count : Z) (delay : Q)
    : list event :=
  match n with
  | O => []
  | S n' =>
      [Called q; Logged WARNING (ApiErrorAttempt (retry_count + 1) e)] ++
      match n' with
      | O => [Logged ERROR MaxRetriesExceeded]
      | S _ => Slept Backoff delay
                 :: failing_events q e n' (retry_count + 1) (delay * 2)%Q
      end
  end.

(** [n] delays, each the double of the one before, from [d]. *)
Fixpoint doubling (d : Q) (n : nat) : list Q :=
  match n with
  | O => []
  | S n => d :: doubling (d * 2)%Q n
  end.

(** ** Comparing two runs *)

(** The API that answers as [api] does, but always with status OK. *)
Definition with_status_ok (r : Response) : Response :=
  {| status := Some "OK"; results := results r; next_page_token := next_page_token r |}.

Definition as_success (api : Api) : Api :=
  λ n q, match api n q with
         | Responds r => Responds (with_status_ok r)
         | Fails e => Fails e
         end.

Definition is_status_warning (ev : event) : bool :=
  match ev with
  | Logged WARNING (ApiReturnedStatus _) => true
  | _ => false
  end.

Definition without_status_warnings (evs : list event) : list event :=
  filter (λ ev, is_status_warning ev = false) evs.

(** Two machines that differ at most in the status warnings they logged. *)
Definition alike (m1 m2 : machine) : Prop :=
  self m1 = self m2 ∧ clock m1 = clock m2 ∧ calls_made m1 = calls_made m2 ∧
  without_status_warnings (trace m1) = without_status_warnings (trace m2) ∧
  checkpoint_file m1 = checkpoint_file m2 ∧ output_file m1 = output_file m2.

(** Two computations that from related states end the same way (returning
    related values, or raising the same exception) in related states. *)
Definition sim {S A} (RS : S → S → Prop) (RA : A → A → Prop) (c1 c2 : M S A) : Prop :=
  ∀ s1 s2, RS s1 s2 →
    match c1 s1, c2 s2 with
    | (Ok a1, t1), (Ok a2, t2) => RA a1 a2 ∧ RS t1 t2
    | (Raise e1, t1), (Raise e2, t2) => e1 = e2 ∧ RS t1 t2
    | (OutOfFuel, t1), (OutOfFuel, t2) => RS t1 t2
    | _, _ => False
    end.

(** Inside the executor the local variables agree as well. *)
Definition alike_in_search (s1 s2 : frame * machine) : Prop :=
  s1.1 = s2.1 ∧ alike s1.2 s2.2.

(** Computations that keep a property of the state, however they end. *)
Definition keeps {S A} (P : S → Prop) (c : M S A) : Prop :=
  ∀ s, P s → P (c s).2.

(** The machine's extractor stores every Place under its own id. *)
Definition well_keyed (m : machine) : Prop := keyed_by_id (self m).

(** Computations that never use up the budget of the model. *)
Definition halts {S A} (c : M S A) : Prop :=
  ∀ s, match (c s).1 with OutOfFuel => False | _ => True end.

(** Computations whose only abnormal ending is an exception that an
    [except Exception] clause catches. *)
Definition catchable {S A} (c : M S A) : Prop :=
  ∀ s, match (c s).1 with
       | Ok _ => True
       | Raise e => is_Exception e = true
       | OutOfFuel => False
       end.

(** ** Scenarios *)

(** The defaults of [Config], with GOOGLE_PLACES_API_KEY set in the
    environment. *)
Definition default_config : Config :=
  {| API_KEY := "AIzaSyExampleKeyOfATestProject";
     BBOX_NORTH := 0x1.2266666666666p+4;    (* 18.15 *)
     BBOX_SOUTH := 0x1.1f33333333333p+4;    (* 17.95 *)
     BBOX_EAST := (-0x1.fb33333333333p+3);  (* -15.85 *)
     BBOX_WEST := (-0x1.019999999999ap+4);  (* -16.10 *)
     GRID_LAT_DIVISIONS := 10;
     GRID_LNG_DIVISIONS := 10;
     SEARCH_RADIUS_METERS := 1000;
     PLACE_TYPES :=
       ["restaurant"; "cafe"; "bar"; "food"; "lodging"; "hotel"; "mosque";
        "school"; "university"; "library"; "hospital"; "pharmacy"; "doctor";
        "dentist"; "bank"; "atm"; "store"; "supermarket"; "shopping_mall";
        "gas_station"; "car_repair"; "bus_station"; "taxi_stand"; "airport";
        "laundry"; "beauty_salon"; "hair_care"; "spa"; "gym"; "stadium"; "park";
        "movie_theater"; "night_club"; "casino"; "travel_agency";
        "real_estate_agency"; "lawyer"; "accountant"; "insurance_agency";
        "post_office"; "courthouse"; "embassy"; "police"; "fire_station";
        "local_government_office"; "bakery"; "electronics_store";
        "furniture_store"; "hardware_store"; "home_goods_store";
        "clothing_store"; "shoe_store"; "jewelry_store"; "book_store";
        "florist"; "pet_store"; "car_dealer"; "car_rental"; "car_wash";
        "parking"; "church"; "hindu_temple"; "synagogue"; "museum";
        "art_gallery"; "aquarium"; "zoo"; "veterinary_care"; "plumber";
        "electrician"; "locksmith"; "roofing_contractor"; "painter";
        "moving_company"; "storage"; "finance"; "accounting";
        "point_of_interest"; "establishment"; "cemetery"; "funeral_home";
        "campground"; "rv_park"; "tourist_attraction"; "amusement_park"];
     INCLUDE_GENERIC_SEARCH := true;
     DELAY_BETWEEN_REQUESTS_SECONDS := 1 # 2;
     PAGINATION_DELAY_SECONDS := 5 # 2;
     MAX_RETRIES := 5;
     INITIAL_RETRY_DELAY_SECONDS := 1;
     ENABLE_CHECKPOINTING := true;
     CHECKPOINT_INTERVAL := 10 |}.

(** The defaults on another grid and another list of place types. *)
Definition configured (rows columns : Z) (place_types : list string) : Config :=
  {| API_KEY := API_KEY default_config;
     BBOX_NORTH := BBOX_NORTH default_config;
     BBOX_SOUTH := BBOX_SOUTH default_config;
     BBOX_EAST := BBOX_EAST default_config;
     BBOX_WEST := BBOX_WEST default_config;
     GRID_LAT_DIVISIONS := rows;
     GRID_LNG_DIVISIONS := columns;
     SEARCH_RADIUS_METERS := SEARCH_RADIUS_METERS default_config;
     PLACE_TYPES := place_types;
     INCLUDE_GENERIC_SEARCH := INCLUDE_GENERIC_SEARCH default_config;
     DELAY_BETWEEN_REQUESTS_SECONDS := DELAY_BETWEEN_REQUESTS_SECONDS default_config;
     PAGINATION_DELAY_SECONDS := PAGINATION_DELAY_SECONDS default_config;
     MAX_RETRIES := MAX_RETRIES default_config;
     INITIAL_RETRY_DELAY_SECONDS := INITIAL_RETRY_DELAY_SECONDS default_config;
     ENABLE_CHECKPOINTING := ENABLE_CHECKPOINTING default_config;
     CHECKPOINT_INTERVAL := CHECKPOINT_INTERVAL default_config |}.

(** One cell, searched for cafes and then without a type filter. *)
Definition one_cell_config : Config := configured 1 1 ["cafe"].

(** A configuration with another API key, and one with another initial
    retry delay. *)
Definition with_api_key (key : string) (config : Config) : Config :=
  {| API_KEY := key;
     BBOX_NORTH := BBOX_NORTH config;
     BBOX_SOUTH := BBOX_SOUTH config;
     BBOX_EAST := BBOX_EAST config;
     BBOX_WEST := BBOX_WEST config;
     GRID_LAT_DIVISIONS := GRID_LAT_DIVISIONS config;
     GRID_LNG_DIVISIONS := GRID_LNG_DIVISIONS config;
     SEARCH_RADIUS_METERS := SEARCH_RADIUS_METERS config;
     PLACE_TYPES := PLACE_TYPES config;
     INCLUDE_GENERIC_SEARCH := INCLUDE_GENERIC_SEARCH config;
     DELAY_BETWEEN_REQUESTS_SECONDS := DELAY_BETWEEN_REQUESTS_SECONDS config;
     PAGINATION_DELAY_SECONDS := PAGINATION_DELAY_SECONDS config;
     MAX_RETRIES := MAX_RETRIES config;
     INITIAL_RETRY_DELAY_SECONDS := INITIAL_RETRY_DELAY_SECONDS config;
     ENABLE_CHECKPOINTING := ENABLE_CHECKPOINTING config;
     CHECKPOINT_INTERVAL := CHECKPOINT_INTERVAL config |}.

Definition with_initial_retry_delay (delay : Q) (config : Config) : Config :=
  {| API_KEY := API_KEY config;
     BBOX_NORTH := BBOX_NORTH config;
     BBOX_SOUTH := BBOX_SOUTH config;
     BBOX_EAST := BBOX_EAST config;
     BBOX_WEST := BBOX_WEST config;
     GRID_LAT_DIVISIONS := GRID_LAT_DIVISIONS config;
     GRID_LNG_DIVISIONS := GRID_LNG_DIVISIONS config;
     SEARCH_RADIUS_METERS := SEARCH_RADIUS_METERS config;
     PLACE_TYPES := PLACE_TYPES config;
     INCLUDE_GENERIC_SEARCH := INCLUDE_GENERIC_SEARCH config;
     DELAY_BETWEEN_REQUESTS_SECONDS := DELAY_BETWEEN_REQUESTS_SECONDS config;
     PAGINATION_DELAY_SECONDS := PAGINATION_DELAY_SECONDS config;
     MAX_RETRIES := MAX_RETRIES config;
     INITIAL_RETRY_DELAY_SECONDS := delay;
     ENABLE_CHECKPOINTING := ENABLE_CHECKPOINTING config;
     CHECKPOINT_INTERVAL := CHECKPOINT_INTERVAL config |}.

(** The defaults as the repository has them, with no key in the
    environment. *)
Definition key_not_set : Config := with_api_key "YOUR_API_KEY_HERE" one_cell_config.

Definition raw (place_id name : option string) : RawResult :=
  {| raw_place_id := place_id; raw_name := name; raw_types := None;
     raw_geometry := None |}.

Definition page (rs : list RawResult) (cursor : option string) : Response :=
  {| status := Some "OK"; results := Some rs; next_page_token := cursor |}.

(** An API that knows one cafe and, without a filter, one kiosk. *)
Definition two_places_api : Api :=
  λ _ q, match req_type q with
         | Some _ => Responds (page [raw (Some "id-cafe") (Some "Cafe")] None)
         | None => Responds (page [raw (Some "id-kiosk") (Some "Kiosk")] None)
         end.

(** The same API for an operator who presses Ctrl-C during the second call. *)
Definition interrupted_api : Api :=
  λ n q, if (n =? 1)%nat then Fails KeyboardInterrupt else two_places_api n q.

Definition failing_api : Api := λ _ _, Fails (ApiError "timeout").

(** A service that denies every request, and one that cannot be reached. *)
Definition denial : Response :=
  {| status := Some "REQUEST_DENIED"; results := None; next_page_token := None |}.

Definition denying_service : Service := λ _ _, Answers denial.

Definition unreachable_service : Service :=
  λ _ _, Unreachable (ApiError "REQUEST_DENIED").

Definition three_page_api : Api :=
  λ _ q, match req_page_token q with
         | None => Responds (page [raw (Some "p1") (Some "One")] (Some "cursor-1"))
         | Some "cursor-1" =>
             Responds (page [raw (Some "p2") (Some "Two")] (Some "cursor-2"))
         | Some _ => Responds (page [raw (Some "p3") (Some "Three")] None)
         end.

(** A checkpoint file that lost its [places] key. *)
Definition partial_checkpoint : CheckpointData :=
  {| d_checkpoint := Some
       {| d_last_completed_cell_index := Some 0;
          d_total_unique_places := Some 1;
          d_total_api_calls := Some 2;
          d_total_duplicates_skipped := Some 0;
          d_timestamp := Some "2025-01-01T00:00:00" |};
     d_seen_place_ids := Some ["id-kiosk"];
     d_places := None |}.

(** A result that carries a name but no id. *)
Definition nameless : RawResult := raw None (Some "Stall").

(** Three sightings of the cafe, the later ones under other names. *)
Definition cafe_first : RawResult := raw (Some "id-cafe") (Some "Cafe").
Definition cafe_later : list RawResult :=
  [raw (Some "id-cafe") (Some "Cafe Tunis"); raw (Some "id-cafe") None].

(** A process that has collected the cafe and the kiosk. *)
Definition collected : machine :=
  (for_each [cafe_first; raw (Some "id-kiosk") (Some "Kiosk")] process_result
     (boot "t0" Absent None)).2.

(** The centre of the search in the executor scenarios. *)
Definition centre : float * float := (18%float, (-16)%float).

(** The ids in the final output file, if it was written. *)
Definition output_ids (m : machine) : option (gset string) := dom <$> output_file m.

(** ** Ingesting a page of results *)

(** The ids [process_result] finds usable in a list of results, in order. *)
Definition ids_of (rs : list RawResult) : list string :=
  omap (λ r, if truthy (raw_place_id r) then raw_place_id r else None) rs.

(** Every stored Place has its id in the seen-id set. *)
Definition places_seen (m : machine) : Prop :=
  dom (places (self m)) ⊆ seen_place_ids (self m).

(** ** Retrying a request *)

(** What [k] failed attempts leave behind when each is followed by a retry:
    the attempts are numbered from [retry_count + 1] and the first backoff
    is [delay]. *)
Fixpoint retried_events (q : Request) (e : exn) (k : nat) (retry_count : Z) (delay : Q)
    : list event :=
  match k with
  | O => []
  | S k =>
      [Called q; Logged WARNING (ApiErrorAttempt (retry_count + 1) e);
       Slept Backoff delay]
      ++ retried_events q e k (retry_count + 1) (delay * 2)%Q
  end.


(** The API-call counter runs [c] ahead of the requests in the trace. *)
Definition calls_balanced (c : Z) (m : machine) : Prop :=
  total_api_calls (self m) - Z.of_nat (length (calls_of (trace m))) = c.

(** ** A run against an API that answers *)

(** An API that answers every request, with a page that has no cursor. *)
Definition healthy (api : Api) : Prop :=
  ∀ n q, ∃ r, api n q = Responds r ∧ truthy (next_page_token r) = false.

(** A computation that returns from every state, having issued [n]
    requests. *)
Definition issues {A} (n : nat) (c : M machine A) : Prop :=
  ∀ m, ∃ a m', c m = (Ok a, m') ∧
    length (calls_of (trace m')) = (length (calls_of (trace m)) + n)%nat.

(** An API that times out on the first two calls of a process. *)
Definition flaky_api : Api :=
  λ n q, if (n <? 2)%nat then Fails (ApiError "timeout") else two_places_api n q.

(** The one cell of a 1 x 1 grid. *)
Definition only_cell : GridCell :=
  {| row := 0; col := 0; center_lat := 18; center_lng := -16 |}.

(** ** The places viewer ([app.py], [app_secure.py]) *)

(** The JSON values the viewer reads in a place object: null, a number, a
    string or an array of strings. *)
Inductive jvalue :=
  | JNull
  | JNum (x : float)
  | JStr (s : string)
  | JStrings (l : list string).

(** The file [PLACES_FILE]: missing, not JSON, or an array of objects. *)
Inductive places_file :=
  | NoFile
  | Garbled
  | Listing (places : list (gmap string jvalue)).

(** What a route answers. *)
Inductive reply :=
  | AllPlaces (places : list (gmap string jvalue))
  | NoIdsProvided                                    (* status 400 *)
  | Deleted (deleted_count remaining_count : Z)
  | Statistics (total_places : nat) (type_counts : gmap string nat)
  | AuthenticationRequired.                          (* status 401 *)

Definition load_places : M places_file (list (gmap string jvalue)) :=
  f ← gets id;
  match f with
  | NoFile => mret []
  | Garbled => raise ValueError
  | Listing places => mret places
  end.

Definition save_places (places : list (gmap string jvalue)) : M places_file unit :=
  modify (λ _, Listing places).

Definition get_places : M places_file reply :=
  places ← load_places;
  mret (AllPlaces places).

(** [p['id'] not in ids_to_delete]: the key must be there and its value
    hashable; only a string can be one of the ids. *)
Definition not_to_delete (ids_to_delete : gset string) (p : gmap string jvalue)
    : result bool :=
  match p !! "id" with
  | None => Raise (KeyError "id")
  | Some (JStrings _) => Raise TypeError
  | Some (JStr s) => Ok (bool_decide (s ∉ ids_to_delete))
  | Some (JNum _) | Some JNull => Ok true
  end.

(** [[p for p in places if p['id'] not in ids_to_delete]]. *)
Fixpoint remaining_places (ids_to_delete : gset string)
    (places : list (gmap string jvalue)) : result (list (gmap string jvalue)) :=
  match places with
  | [] => Ok []
  | p :: places =>
      keep ← not_to_delete ids_to_delete p;
      rest ← remaining_places ids_to_delete places;
      mret (if (keep : bool) then p :: rest else rest)
  end.

(** [delete_places], on the value of the body's ['ids'] key if it has one. *)
Definition delete_places (ids : option (list string)) : M places_file reply :=
  let ids_to_delete : gset string := list_to_set (default [] ids) in
  if bool_decide (ids_to_delete = ∅) then mret NoIdsProvided
  else
    places ← load_places;
    remaining_places ← lift_result (remaining_places ids_to_delete places);
    save_places remaining_places ;;
    mret (Deleted (Z.of_nat (length places) - Z.of_nat (length remaining_places))
                  (Z.of_nat (length remaining_places))).

(** [place.get('types', [])] as the loop iterates over it: a string gives
    its characters (exact for ASCII text, the model's strings being byte
    strings). *)
Definition types_of (place : gmap string jvalue) : result (list string) :=
  match place !! "types" with
  | None => Ok []
  | Some (JStrings l) => Ok l
  | Some (JStr s) => Ok ((λ c, String c EmptyString) <$> String.list_ascii_of_string s)
  | Some (JNum _) | Some JNull => Raise TypeError
  end.

(** [type_counts[place_type] = type_counts.get(place_type, 0) + 1]. *)
Definition count_type (type_counts : gmap string nat) (place_type : string)
    : gmap string nat :=
  <[place_type := (default 0 (type_counts !! place_type) + 1)%nat]> type_counts.

Fixpoint count_types (type_counts : gmap string nat)
    (places : list (gmap string jvalue)) : result (gmap string nat) :=
  match places with
  | [] => Ok type_counts
  | place :: places =>
      place_types ← types_of place;
      count_types (foldl count_type type_counts place_types) places
  end.

Definition get_stats : M places_file reply :=
  places ← load_places;
  type_counts ← lift_result (count_types ∅ places);
  mret (Statistics (length places) type_counts).

(** [check_auth] and [requires_auth] of [app_secure.py]; [auth] is the
    request's basic authorization, if it carries one. *)
Definition check_auth (USERNAME PASSWORD username password : string) : bool :=
  bool_decide (username = USERNAME) && bool_decide (password = PASSWORD).

Definition requires_auth (USERNAME PASSWORD : string) (auth : option (string * string))
    (f : M places_file reply) : M places_file reply :=
  match auth with
  | None => mret AuthenticationRequired
  | Some (username, password) =>
      if check_auth USERNAME PASSWORD username password then f
      else mret AuthenticationRequired
  end.

(** The object the extractor writes for a Place: the keys of [to_dict]. *)
Definition put_key (key : string) (v : option jvalue) (o : gmap string jvalue)
    : gmap string jvalue :=
  match v with
  | Some v => <[key := v]> o
  | None => o
  end.

Definition dict_items (d : PlaceDict) : gmap string jvalue :=
  put_key "place_id" (JStr <$> d_place_id d)
    (put_key "name" (JStr <$> d_name d)
       (put_key "types" (JStrings <$> d_types d)
          (put_key "latitude" (JNum <$> d_latitude d)
             (put_key "longitude" (JNum <$> d_longitude d) ∅)))).

(** Whether a place carries one of the given ids. *)
Definition to_delete (ids_to_delete : gset string) (p : gmap string jvalue) : bool :=
  match p !! "id" with
  | Some (JStr s) => bool_decide (s ∈ ids_to_delete)
  | _ => false
  end.

(** Whether [p['id']] can be evaluated and hashed. *)
Definition has_hashable_id (p : gmap string jvalue) : bool :=
  match p !! "id" with
  | Some (JStrings _) | None => false
  | Some _ => true
  end.

(** The type tags of a list of places whose ['types'], where present, are
    arrays of strings. *)
Definition tags_of (places : list (gmap string jvalue)) : list string :=
  places ≫= λ place, match place !! "types" with
                      | Some (JStrings l) => l
                      | _ => []
                      end.

Definition has_listed_types (place : gmap string jvalue) : bool :=
  match place !! "types" with
  | None | Some (JStrings _) => true
  | Some _ => false
  end.

(** How often a tag occurs. *)
Definition occurrences (t : string) (l : list string) : nat :=
  length (filter (λ x, x = t) l).

(** A place object as the viewer expects it, and a small file of them. *)
Definition viewer_place (i : string) (ts : list string) : gmap string jvalue :=
  <["id" := JStr i]> (<["types" := JStrings ts]> ∅).

Definition viewer_listing : list (gmap string jvalue) :=
  [viewer_place "a" ["cafe"; "food"]; viewer_place "b" ["cafe"];
   viewer_place "c" []].

(* ====================================================================== *)
(** * Properties *)

(** ** Running the monad *)

Section MonadSteps.
Context {S A B : Type}.
Implicit Types (f : A → M S B) (s : S).

Lemma bind_ok (c : M S A) f s a s' :
  c s = (Ok a, s') → (c ≫= f) s = f a s'.
Proof. intros Hc. unfold mbind, M_mbind, M_bind. by rewrite Hc. Qed.

Lemma bind_raise (c : M S A) f s e s' :
  c s = (Raise e, s') → (c ≫= f) s = (Raise e, s').
Proof. intros Hc. unfold mbind, M_mbind, M_bind. by rewrite Hc. Qed.

Lemma bind_mret (a : A) f s : (mret a ≫= f) s = f a s.
Proof. done. Qed.

Lemma bind_gets (g : S → A) f s : (gets g ≫= f) s = f (g s) s.
Proof. done. Qed.

Lemma bind_lift_ok (a : A) f s : (lift_result (Ok a) ≫= f) s = f a s.
Proof. done. Qed.

Lemma bind_lift_raise (e : exn) f s :
  (lift_result (Raise e) ≫= f) s = (Raise e, s).
Proof. done. Qed.

Lemma bind_raise_now (e : exn) f s : (raise e ≫= f) s = (Raise e, s).
Proof. done. Qed.
End MonadSteps.

Lemma bind_modify {S B} (g : S → S) (f : unit → M S B) (s : S) :
  (modify g ≫= f) s = f tt (g s).
Proof. done. Qed.

Lemma bind_log {B} (l : level) (msg : log_msg) (f : unit → M machine B) (m : machine) :
  (log l msg ≫= f) m = f tt (with_event (Logged l msg) m).
Proof. done. Qed.

Lemma bind_assoc {S A B C} (c : M S A) (f : A → M S B) (g : B → M S C) (s : S) :
  ((c ≫= f) ≫= g) s = (c ≫= λ a, f a ≫= g) s.
Proof.
  unfold mbind, M_mbind, M_bind. by destruct (c s) as [[a|e|] s'].
Qed.

Lemma try_except_ok {S A} (body : M S A) (handler : exn → M S A) (s s' : S) (a : A) :
  body s = (Ok a, s') → try_except body handler s = (Ok a, s').
Proof. intros Hb. unfold try_except. by rewrite Hb. Qed.

Lemma try_except_caught {S A} (body : M S A) (handler : exn → M S A) (s s' : S) (e : exn) :
  body s = (Raise e, s') → is_Exception e = true →
  try_except body handler s = handler e s'.
Proof. intros Hb He. unfold try_except. by rewrite Hb, He. Qed.

Lemma try_except_passes {S A} (body : M S A) (handler : exn → M S A) (s s' : S) (e : exn) :
  body s = (Raise e, s') → is_Exception e = false →
  try_except body handler s = (Raise e, s').
Proof. intros Hb He. unfold try_except. by rewrite Hb, He. Qed.

(** One step of a method: reduce the subscripts in front, then run the
    first statement. *)
Ltac run_step :=
  first
    [ progress cbn [json_load getitem Place_of_dict to_dict
        d_checkpoint d_seen_place_ids d_places
        d_last_completed_cell_index d_total_unique_places d_total_api_calls
        d_total_duplicates_skipped d_timestamp
        d_place_id d_name d_types d_latitude d_longitude]
    | rewrite bind_mret | rewrite bind_gets | rewrite bind_lift_ok
    | rewrite bind_lift_raise | rewrite bind_raise_now | rewrite bind_modify
    | rewrite bind_log ].
Ltac run := repeat run_step.

(** ** Grid generator *)

Section ListBind.
Context {A B : Type} (f : A → list B) (n : nat).
Hypothesis chunk : ∀ x, length (f x) = n.

Lemma bind_uniform_length (l : list A) :
  length (l ≫= f) = (length l * n)%nat.
Proof.
  induction l as [|x l IH]; [done|].
  rewrite bind_cons, length_app, chunk, IH. simpl. lia.
Qed.

Lemma bind_uniform_lookup (l : list A) (i j : nat) (x : A) :
  l !! i = Some x → (j < n)%nat →
  (l ≫= f) !! (i * n + j)%nat = f x !! j.
Proof.
  revert i. induction l as [|y l IH]; intros i Hi Hj; [done|].
  rewrite bind_cons. destruct i as [|i]; simpl in Hi.
  - injection Hi as ->. simpl. rewrite lookup_app_l by (rewrite chunk; lia). done.
  - rewrite lookup_app_r by (rewrite chunk; lia).
    rewrite chunk. replace (S i * n + j - n)%nat with (i * n + j)%nat by lia.
    by apply IH.
Qed.
End ListBind.

Lemma generate_grid_steps config :
  GRID_LAT_DIVISIONS config ≠ 0 → GRID_LNG_DIVISIONS config ≠ 0 →
  generate_grid config =
    Ok (row ← py_range (GRID_LAT_DIVISIONS config);
        col ← py_range (GRID_LNG_DIVISIONS config);
        [grid_cell_at config
           ((BBOX_NORTH config - BBOX_SOUTH config)
              / float_of_int (GRID_LAT_DIVISIONS config))%float
           ((BBOX_EAST config - BBOX_WEST config)
              / float_of_int (GRID_LNG_DIVISIONS config))%float
           row col]).
Proof.
  intros Hr Hc. unfold generate_grid, float_div_int.
  apply Z.eqb_neq in Hr, Hc. by rewrite Hr, Hc.
Qed.

(** C4: with positive division counts the generator returns exactly
    rows × columns cells, in row-major order: the cell at position
    [r * columns + c] is cell (r, c), centred at
    [south + (r + 0.5) * latStep] and [west + (c + 0.5) * lngStep] with
    [latStep = (north - south) / rows], [lngStep = (east - west) / columns]. *)
Theorem generate_grid_row_major (config : Config) :
  let rows := GRID_LAT_DIVISIONS config in
  let columns := GRID_LNG_DIVISIONS config in
  let latStep := ((BBOX_NORTH config - BBOX_SOUTH config) / float_of_int rows)%float in
  let lngStep := ((BBOX_EAST config - BBOX_WEST config) / float_of_int columns)%float in
  0 < rows → 0 < columns →
  ∃ cells,
    generate_grid config = Ok cells ∧
    Z.of_nat (length cells) = rows * columns ∧
    ∀ r c, 0 ≤ r < rows → 0 ≤ c < columns →
      cells !! Z.to_nat (r * columns + c) =
        Some {| row := r; col := c;
                center_lat := (BBOX_SOUTH config + (float_of_int r + 0.5) * latStep)%float;
                center_lng := (BBOX_WEST config + (float_of_int c + 0.5) * lngStep)%float |}.
Proof.
  intros rows columns latStep lngStep Hr Hc.
  eexists. split; [apply generate_grid_steps; fold rows columns; lia|].
  fold rows columns latStep lngStep.
  set (inner := λ row : Z, col ← py_range columns;
                  [grid_cell_at config latStep lngStep row col]).
  assert (Hinner : ∀ x, length (inner x) = Z.to_nat columns).
  { intros x. unfold inner.
    rewrite (bind_uniform_length
               (λ col, [grid_cell_at config latStep lngStep x col]) 1%nat
               (λ _, eq_refl)).
    unfold py_range. rewrite length_seqZ. lia. }
  split.
  - rewrite (bind_uniform_length inner (Z.to_nat columns) Hinner).
    unfold py_range. rewrite length_seqZ. lia.
  - intros r c Hrr Hcc.
    replace (Z.to_nat (r * columns + c))
      with (Z.to_nat r * Z.to_nat columns + Z.to_nat c)%nat by lia.
    rewrite (bind_uniform_lookup inner (Z.to_nat columns) Hinner _ _ _ r).
    + unfold inner.
      replace (Z.to_nat c) with (Z.to_nat c * 1 + 0)%nat by lia.
      rewrite (bind_uniform_lookup
                 (λ col, [grid_cell_at config latStep lngStep r col]) 1%nat
                 (λ _, eq_refl) _ _ _ c); [done| |lia].
      unfold py_range. rewrite lookup_seqZ. lia.
    + unfold py_range. rewrite lookup_seqZ. lia.
    + lia.
Qed.

(** C5 (as the code has it): a division count of zero makes the step
    computation raise [ZeroDivisionError]; with no zero count, a negative
    count yields the empty sequence. *)
Theorem generate_grid_degenerate (config : Config) :
  GRID_LAT_DIVISIONS config ≤ 0 ∨ GRID_LNG_DIVISIONS config ≤ 0 →
  generate_grid config =
    if (GRID_LAT_DIVISIONS config =? 0) || (GRID_LNG_DIVISIONS config =? 0)
    then Raise ZeroDivisionError
    else Ok [].
Proof.
  intros Hdeg. unfold generate_grid, float_div_int.
  destruct (Z.eqb_spec (GRID_LAT_DIVISIONS config) 0) as [Hr|Hr]; [done|].
  destruct (Z.eqb_spec (GRID_LNG_DIVISIONS config) 0) as [Hc|Hc]; [done|].
  simpl. f_equal.
  destruct (decide (GRID_LAT_DIVISIONS config < 0)) as [Hneg|Hpos].
  - unfold py_range. by rewrite (seqZ_nil 0 (GRID_LAT_DIVISIONS config)) by lia.
  - assert (GRID_LNG_DIVISIONS config < 0) as Hneg by lia.
    unfold py_range. rewrite (seqZ_nil 0 (GRID_LNG_DIVISIONS config)) by lia.
    induction (seqZ 0 (GRID_LAT_DIVISIONS config)) as [|x l IH]; [done|].
    by rewrite bind_cons, IH.
Qed.

(** ** Deduplicating collector *)

Lemma process_result_missing_id (result : RawResult) (m : machine) :
  truthy (raw_place_id result) = false →
  process_result result m =
    (Ok tt, with_event (Logged WARNING
                          (PlaceWithoutPlaceId (default "unknown" (raw_name result)))) m).
Proof.
  intros Hfalsy. unfold process_result. by rewrite Hfalsy.
Qed.

Lemma process_result_new (result : RawResult) (i : string) (m : machine) :
  raw_place_id result = Some i → i ≠ "" → i ∉ seen_place_ids (self m) →
  process_result result m =
    (Ok tt, with_self (add_place (place_of_result i result)) m).
Proof.
  intros Hid Hne Hnew. unfold process_result. rewrite Hid. simpl.
  apply (proj2 (String.eqb_neq i "")) in Hne. rewrite Hne. simpl.
  rewrite bind_gets. by rewrite bool_decide_eq_false_2.
Qed.

Lemma process_result_duplicate (result : RawResult) (i : string) (m : machine) :
  raw_place_id result = Some i → i ≠ "" → i ∈ seen_place_ids (self m) →
  process_result result m = (Ok tt, with_self count_duplicate m).
Proof.
  intros Hid Hne Hseen. unfold process_result. rewrite Hid. simpl.
  apply (proj2 (String.eqb_neq i "")) in Hne. rewrite Hne. simpl.
  rewrite bind_gets. by rewrite bool_decide_eq_true_2.
Qed.

Lemma for_each_duplicates (i : string) (later : list RawResult) (m : machine) :
  i ≠ "" → Forall (λ r, raw_place_id r = Some i) later →
  i ∈ seen_place_ids (self m) →
  for_each later process_result m =
    (Ok tt, with_self (count_duplicates (length later)) m).
Proof.
  intros Hne Hall. revert m.
  induction Hall as [|r later Hr _ IH]; intros m Hseen.
  - destruct m as [[] ? ? ? ? ?]. unfold with_self, count_duplicates,
      set_total_duplicates_skipped. simpl. by rewrite Z.add_0_r.
  - simpl. unfold mbind, M_mbind, M_bind.
    rewrite (process_result_duplicate r i m Hr Hne Hseen).
    rewrite IH by done.
    destruct m as [[] ? ? ? ? ?]. unfold with_self, count_duplicates, count_duplicate,
      set_total_duplicates_skipped. simpl. do 3 f_equal. lia.
Qed.

(** C3: a record whose id was not seen before, ingested once and then any
    number of further times (in any later sighting with the same id),
    leaves exactly the Place captured at the first ingestion under that id,
    every other entry as it was, and the duplicate counter raised by one per
    ingestion after the first. *)
Theorem ingest_same_id_repeatedly
    (i : string) (first : RawResult) (later : list RawResult) (m : machine) :
  i ≠ "" →
  raw_place_id first = Some i →
  Forall (λ r, raw_place_id r = Some i) later →
  i ∉ seen_place_ids (self m) →
  ∃ m',
    for_each (first :: later) process_result m = (Ok tt, m') ∧
    places (self m') = <[i := place_of_result i first]> (places (self m)) ∧
    seen_place_ids (self m') = {[i]} ∪ seen_place_ids (self m) ∧
    total_duplicates_skipped (self m') =
      total_duplicates_skipped (self m) + Z.of_nat (length later) ∧
    total_api_calls (self m') = total_api_calls (self m) ∧
    trace m' = trace m.
Proof.
  intros Hne Hfirst Hlater Hnew. eexists. split.
  - simpl. unfold mbind, M_mbind, M_bind.
    rewrite (process_result_new first i m Hfirst Hne Hnew).
    apply (for_each_duplicates i); [done..|]. simpl. set_solver.
  - done.
Qed.

(** C9 (as the code has it): a record without a usable id is dropped with a
    warning; the extractor, with its Place mapping, seen-id set and both
    counters, is left as it was, and nothing is raised. *)
Theorem ingest_without_id (result : RawResult) (m : machine) :
  truthy (raw_place_id result) = false →
  ∃ m',
    process_result result m = (Ok tt, m') ∧
    self m' = self m ∧
    trace m' = trace m ++
      [Logged WARNING (PlaceWithoutPlaceId (default "unknown" (raw_name result)))].
Proof.
  intros Hfalsy. eexists. split; [by apply process_result_missing_id|done].
Qed.

(** ** Checkpoint store *)

Lemma keyed_by_id_new : keyed_by_id new_extractor.
Proof. apply map_Forall_empty. Qed.

Lemma keyed_by_id_add (place : Place) (x : PlacesExtractor) :
  keyed_by_id x → keyed_by_id (add_place place x).
Proof. intros Hx. by apply map_Forall_insert_2. Qed.

Lemma keyed_by_id_store (place : Place) (x : PlacesExtractor) :
  keyed_by_id x → keyed_by_id (store_place place x).
Proof. intros Hx. by apply map_Forall_insert_2. Qed.

Lemma process_result_keyed (result : RawResult) (m : machine) :
  keyed_by_id (self m) → keyed_by_id (self (process_result result m).2).
Proof.
  intros Hm. unfold process_result.
  destruct (truthy (raw_place_id result)); [|done]. simpl.
  rewrite bind_gets. case_bool_decide; [done|].
  by apply keyed_by_id_add.
Qed.

Section Restore.
Variable X : gmap string Place.

Lemma restore_within (ps : list Place) (acc : gmap string Place) :
  (∀ p, p ∈ ps → X !! place_id p = Some p) → acc ⊆ X → restore ps acc ⊆ X.
Proof.
  revert acc. induction ps as [|p ps IH]; intros acc Hps Hacc; [done|].
  simpl. apply IH.
  - intros q Hq. apply Hps. by right.
  - apply insert_subseteq_l; [|done]. apply Hps. by left.
Qed.

Lemma restore_keeps (ps : list Place) (acc : gmap string Place) (k : string) :
  is_Some (acc !! k) → is_Some (restore ps acc !! k).
Proof.
  revert acc. induction ps as [|p ps IH]; intros acc Hk; [done|].
  simpl. apply IH. rewrite lookup_insert. by case_decide.
Qed.

Lemma restore_covers (ps : list Place) (acc : gmap string Place) (p : Place) :
  p ∈ ps → is_Some (restore ps acc !! place_id p).
Proof.
  revert acc. induction ps as [|q ps IH]; intros acc Hp.
  - by apply elem_of_nil in Hp.
  - apply elem_of_cons in Hp as [->|Hp]; simpl.
    + apply restore_keeps. by rewrite lookup_insert_eq.
    + by apply IH.
Qed.

(** Reloading the values of a dictionary keyed by id gives it back, over
    any dictionary already inside it. *)
Lemma restore_values (acc : gmap string Place) :
  map_Forall (λ k p, place_id p = k) X → acc ⊆ X →
  restore (map_to_list X).*2 acc = X.
Proof.
  intros Hkey Hacc.
  assert (Hin : ∀ p, p ∈ (map_to_list X).*2 → X !! place_id p = Some p).
  { intros p Hp. apply list_elem_of_fmap in Hp as [[k q] [-> Hkq]].
    apply elem_of_map_to_list in Hkq. simpl.
    by rewrite (Hkey k q Hkq). }
  pose proof (restore_within _ acc Hin Hacc) as Hsub.
  apply map_eq. intros k.
  destruct (X !! k) as [p|] eqn:HX.
  - assert (p ∈ (map_to_list X).*2) as Hp.
    { apply list_elem_of_fmap. exists (k, p). split; [done|].
      by apply elem_of_map_to_list. }
    destruct (restore_covers _ acc p Hp) as [q Hq].
    rewrite (Hkey k p HX) in Hq.
    rewrite Hq. f_equal.
    pose proof (lookup_weaken _ _ _ _ Hq Hsub) as HXq. congruence.
  - destruct (restore (map_to_list X).*2 acc !! k) as [q|] eqn:Hq; [|done].
    pose proof (lookup_weaken _ _ _ _ Hq Hsub) as HXq. congruence.
Qed.
End Restore.

Lemma for_each_store (ps : list Place) (m : machine) :
  for_each (to_dict <$> ps)
    (λ place_dict,
       place ← lift_result (Place_of_dict place_dict);
       modify (with_self (store_place place))) m
  = (Ok tt, with_self (λ x, set_places (restore ps (places x)) x) m).
Proof.
  revert m. induction ps as [|p ps IH]; intros m.
  - by destruct m as [[] ? ? ? ? ?].
  - simpl. unfold mbind at 1, M_mbind, M_bind at 1.
    replace ((lift_result (Place_of_dict (to_dict p))
               ≫= λ place, modify (with_self (store_place place))) m)
      with (Ok tt, with_self (store_place p) m).
    + rewrite IH. by destruct m as [[] ? ? ? ? ?].
    + by destruct p.
Qed.

Lemma save_checkpoint_file (m : machine) :
  save_checkpoint m =
    (Ok tt, with_event (Logged INFO CheckpointSaved)
              (with_checkpoint_file (Parsed (checkpoint_data (self m) (clock m))) m)).
Proof. done. Qed.

Lemma load_saved_checkpoint (x : PlacesExtractor) (stamp : string) (loader : machine) :
  checkpoint_file loader = Parsed (checkpoint_data x stamp) →
  load_checkpoint loader =
    (Ok (Some (current_cell_index x + 1)),
     with_event
       (Logged INFO (CheckpointLoaded stamp (current_cell_index x + 1)
                       (size (restore (places_values x) (places (self loader))))))
       (with_self (λ y,
          set_total_duplicates_skipped (total_duplicates_skipped x)
            (set_total_api_calls (total_api_calls x)
               (set_places (restore (places_values x) (places y))
                  (set_seen_place_ids (list_to_set (elements (seen_place_ids x))) y))))
          loader)).
Proof.
  intros Hfile. unfold load_checkpoint.
  rewrite bind_gets, Hfile. unfold try_except, checkpoint_data. run.
  rewrite (bind_ok _ _ _ _ _ (for_each_store _ _)). run.
  by destruct loader as [[] ? ? ? ? ?].
Qed.

(** C2: loading the file that [save_checkpoint] wrote, into a fresh
    extractor or into the saving one (any whose Places are among the saved
    ones), gives back the saved seen-id set, the saved Place mapping and both
    saved counters, and returns the saved last-completed index plus one. *)
Theorem checkpoint_round_trip (m loader : machine) :
  keyed_by_id (self m) →
  places (self loader) ⊆ places (self m) →
  checkpoint_file loader = checkpoint_file (save_checkpoint m).2 →
  ∃ last loader',
    saved_last_completed (checkpoint_file (save_checkpoint m).2) = Some last ∧
    load_checkpoint loader = (Ok (Some (last + 1)), loader') ∧
    seen_place_ids (self loader') = seen_place_ids (self m) ∧
    places (self loader') = places (self m) ∧
    total_api_calls (self loader') = total_api_calls (self m) ∧
    total_duplicates_skipped (self loader') = total_duplicates_skipped (self m).
Proof.
  intros Hkey Hsub Hfile. rewrite save_checkpoint_file in Hfile |- *. simpl in Hfile.
  eexists _, _. split; [done|]. split; [by apply load_saved_checkpoint|].
  simpl. split; [by rewrite list_to_set_elements_L|].
  split; [by apply restore_values|done].
Qed.

(** ** Search executor *)

Lemma after_nothing (m : machine) : after m [] 0 = m.
Proof.
  destruct m as [[] ? ? ? ? ?]. unfold after, set_total_api_calls. simpl.
  by rewrite Z.add_0_r, app_nil_r.
Qed.

Lemma after_after (m : machine) (evs1 evs2 : list event) (n1 n2 : nat) :
  after (after m evs1 n1) evs2 n2 = after m (evs1 ++ evs2) (n2 + n1).
Proof.
  unfold after, set_total_api_calls. simpl. f_equal.
  - f_equal. lia.
  - lia.
  - by rewrite app_assoc.
Qed.

Lemma with_event_after (ev : event) (m : machine) : with_event ev m = after m [ev] 0.
Proof.
  destruct m as [[] ? ? ? ? ?]. unfold after, with_event, set_total_api_calls. simpl.
  by rewrite Z.add_0_r.
Qed.

Lemma sleep_ok (site : sleep_site) (d : Q) (m : machine) :
  (0 <= d)%Q → sleep site d m = (Ok tt, after m [Slept site d] 0).
Proof.
  intros Hd. unfold sleep. apply Qle_bool_iff in Hd. rewrite Hd.
  unfold modify. by rewrite with_event_after.
Qed.

Section InnerSteps.
Context {A B : Type}.
Implicit Types (f : A → M (frame * machine) B) (fr : frame) (m : machine).

Lemma bind_inner_ok (c : M machine A) f fr m a m' :
  c m = (Ok a, m') → (inner c ≫= f) (fr, m) = f a (fr, m').
Proof. intros Hc. apply bind_ok. unfold inner. simpl. by rewrite Hc. Qed.

Lemma bind_inner_raise (c : M machine A) f fr m e m' :
  c m = (Raise e, m') → (inner c ≫= f) (fr, m) = (Raise e, (fr, m')).
Proof. intros Hc. eapply bind_raise. unfold inner. simpl. by rewrite Hc. Qed.

Lemma bind_frame_gets (g : frame → A) f fr m :
  (frame_gets g ≫= f) (fr, m) = f (g fr) (fr, m).
Proof. done. Qed.
End InnerSteps.

Lemma bind_frame_modify {B} (g : frame → frame) (f : unit → M (frame * machine) B)
    (fr : frame) (m : machine) :
  (frame_modify g ≫= f) (fr, m) = f tt (g fr, m).
Proof. done. Qed.

Section ExecutorFacts.
Variable config : Config.
Variable api : Api.
Variable location : float * float.
Variable radius : Z.
Variable place_type : option string.

Local Abbreviation kwargs token := (build_kwargs location radius place_type token).
Local Abbreviation attempt := (try_block config api location radius place_type).

Lemma try_block_fails (fr : frame) (m : machine) (e : exn) :
  api (calls_made m) (kwargs (page_token fr)) = Fails e →
  attempt (fr, m) = (Raise e, (fr, after m [Called (kwargs (page_token fr))] 1)).
Proof.
  intros Hapi. unfold try_block.
  rewrite (bind_inner_ok _ _ _ _ tt (with_self count_api_call m)) by done.
  rewrite bind_frame_gets.
  erewrite bind_inner_raise; [done|].
  unfold places_nearby. simpl. by rewrite Hapi.
Qed.

(** A response is taken as the page, whatever its status. *)
Lemma try_block_responds (fr : frame) (m : machine) (r : Response) :
  api (calls_made m) (kwargs (page_token fr)) = Responds r →
  (0 <= PAGINATION_DELAY_SECONDS config)%Q →
  (0 <= DELAY_BETWEEN_REQUESTS_SECONDS config)%Q →
  attempt (fr, m) =
    (Ok tt,
     (accept_page r fr,
      after m
        ([Called (kwargs (page_token fr))] ++ status_warning r ++
         if truthy (next_page_token r)
         then [Slept Cooldown (PAGINATION_DELAY_SECONDS config);
               Slept RateLimit (DELAY_BETWEEN_REQUESTS_SECONDS config)]
         else []) 1)).
Proof.
  intros Hapi Hpag Hdelay. unfold try_block.
  rewrite (bind_inner_ok _ _ _ _ tt (with_self count_api_call m)) by done.
  rewrite bind_frame_gets.
  rewrite (bind_inner_ok _ _ _ _ r
             (after m [Called (kwargs (page_token fr))] 1))
    by (unfold places_nearby; simpl; by rewrite Hapi).
  unfold status_warning.
  destruct (success_status (status r)).
  - rewrite bind_mret, bind_frame_modify.
    destruct (truthy (next_page_token r)).
    + erewrite bind_inner_ok by (by apply sleep_ok).
      unfold inner. simpl. rewrite sleep_ok by done.
      by rewrite !after_after.
    + by rewrite app_nil_r.
  - erewrite bind_inner_ok by done. rewrite with_event_after, after_after.
    rewrite bind_frame_modify.
    destruct (truthy (next_page_token r)).
    + erewrite bind_inner_ok by (by apply sleep_ok).
      unfold inner. simpl. rewrite sleep_ok by done.
      by rewrite !after_after.
    + by rewrite app_nil_r.
Qed.

Local Abbreviation retrying := (retry_loop config api location radius place_type).
Local Abbreviation paging := (page_loop config api location radius place_type).

Lemma retry_loop_unfold (budget : nat) (retry_count : Z) (delay : Q) :
  retrying (S budget) retry_count delay =
    if retry_count <? MAX_RETRIES config then
      try_except (attempt ;; mret Broke)
        (λ e,
           inner (log WARNING (ApiErrorAttempt (retry_count + 1) e)) ;;
           if MAX_RETRIES config <=? retry_count + 1 then
             inner (log ERROR MaxRetriesExceeded) ;;
             rs ← frame_gets all_results;
             mret (Returned rs)
           else
             inner (sleep Backoff delay) ;;
             retrying budget (retry_count + 1) (delay * 2)%Q)
    else mret Exhausted.
Proof. done. Qed.

Lemma retry_loop_exhausted (budget : nat) (retry_count : Z) (delay : Q)
    (s : frame * machine) :
  MAX_RETRIES config ≤ retry_count →
  retrying budget retry_count delay s = (Ok Exhausted, s).
Proof.
  intros Hmax. apply Z.ltb_ge in Hmax.
  destruct budget; simpl; by rewrite Hmax.
Qed.

(** A responding API ends the retry loop at its first pass. *)
Lemma retry_loop_breaks (budget : nat) (retry_count : Z) (delay : Q)
    (fr : frame) (m : machine) (r : Response) :
  retry_count < MAX_RETRIES config →
  api (calls_made m) (kwargs (page_token fr)) = Responds r →
  (0 <= PAGINATION_DELAY_SECONDS config)%Q →
  (0 <= DELAY_BETWEEN_REQUESTS_SECONDS config)%Q →
  retrying (S budget) retry_count delay (fr, m) =
    (Ok Broke,
     (accept_page r fr,
      after m
        ([Called (kwargs (page_token fr))] ++ status_warning r ++
         if truthy (next_page_token r)
         then [Slept Cooldown (PAGINATION_DELAY_SECONDS config);
               Slept RateLimit (DELAY_BETWEEN_REQUESTS_SECONDS config)]
         else []) 1)).
Proof.
  intros Hlt Hapi Hpag Hdelay. rewrite retry_loop_unfold.
  apply Z.ltb_lt in Hlt. rewrite Hlt.
  apply try_except_ok.
  by rewrite (bind_ok _ _ _ _ _ (try_block_responds _ _ _ Hapi Hpag Hdelay)).
Qed.

(** An API that fails every remaining attempt: the loop gives up after the
    last one and returns what was accumulated. *)
Lemma retry_loop_gives_up (e : exn) (n : nat) :
  (∀ k q, api k q = Fails e) → is_Exception e = true →
  ∀ (retry_count : Z) (delay : Q) (fr : frame) (m : machine),
    n ≠ 0%nat → retry_count + Z.of_nat n = MAX_RETRIES config → (0 <= delay)%Q →
    retrying n retry_count delay (fr, m) =
      (Ok (Returned (all_results fr)),
       (fr, after m (failing_events (kwargs (page_token fr)) e n retry_count delay) n)).
Proof.
  intros Hdown He. induction n as [|n IH]; intros rc d fr m Hn Hmax Hd; [done|].
  rewrite retry_loop_unfold.
  replace (rc <? MAX_RETRIES config) with true by (symmetry; apply Z.ltb_lt; lia).
  erewrite try_except_caught; [| |exact He]; cycle 1.
  { eapply bind_raise. apply try_block_fails. apply Hdown. }
  erewrite bind_inner_ok by done. rewrite with_event_after, after_after.
  destruct n as [|n'].
  - replace (MAX_RETRIES config <=? rc + 1) with true by (symmetry; apply Z.leb_le; lia).
    erewrite bind_inner_ok by done. rewrite with_event_after, after_after.
    by rewrite bind_frame_gets.
  - replace (MAX_RETRIES config <=? rc + 1) with false by (symmetry; apply Z.leb_gt; lia).
    erewrite bind_inner_ok by (by apply sleep_ok). rewrite after_after.
    rewrite IH; [|done|lia|].
    + rewrite after_after. do 3 f_equal. lia.
    + apply Qmult_le_0_compat; [done|]. by compute.
Qed.
End ExecutorFacts.

(** *** The retry loop never needs more than MAX_RETRIES passes *)

Section Halts.
Context {S : Type}.

Lemma halts_bind {A B} (c : M S A) (f : A → M S B) :
  halts c → (∀ a, halts (f a)) → halts (c ≫= f).
Proof.
  intros Hc Hf s. specialize (Hc s). unfold mbind, M_mbind, M_bind.
  destruct (c s) as [[a|e|] s']; [apply Hf|done..].
Qed.

Lemma halts_mret {A} (a : A) : halts (mret a : M S A).
Proof. by intros s. Qed.

Lemma halts_gets {A} (g : S → A) : halts (gets g).
Proof. by intros s. Qed.

Lemma halts_modify (g : S → S) : halts (modify g).
Proof. by intros s. Qed.

Lemma halts_try_except {A} (body : M S A) (handler : exn → M S A) :
  halts body → (∀ e, halts (handler e)) → halts (try_except body handler).
Proof.
  intros Hb Hh s. specialize (Hb s). unfold try_except.
  destruct (body s) as [[a|e|] s']; [done| |done].
  destruct (is_Exception e); [apply Hh|done].
Qed.
End Halts.

Lemma halts_inner {A} (c : M machine A) : halts c → halts (inner c).
Proof.
  intros Hc [fr m]. specialize (Hc m). unfold inner. simpl.
  by destruct (c m) as [[a|e|] m'].
Qed.

Lemma halts_sleep (site : sleep_site) (d : Q) : halts (sleep site d).
Proof. intros m. unfold sleep. by destruct (Qle_bool 0 d). Qed.

Lemma halts_places_nearby (api : Api) (q : Request) : halts (places_nearby api q).
Proof. intros m. unfold places_nearby. by destruct (api (calls_made m) q). Qed.

Lemma halts_try_block (config : Config) (api : Api) (location : float * float)
    (radius : Z) (place_type : option string) :
  halts (try_block config api location radius place_type).
Proof.
  unfold try_block.
  repeat first
    [ apply halts_mret
    | apply halts_inner;
      first [ apply halts_sleep | apply halts_places_nearby | apply halts_modify ]
    | apply halts_gets
    | apply halts_modify
    | apply halts_bind; [|intros ?]
    | match goal with |- halts (if ?b then _ else _) => destruct b end ].
Qed.

Lemma retry_loop_halts (config : Config) (api : Api) (location : float * float)
    (radius : Z) (place_type : option string) (budget : nat) :
  ∀ retry_count delay,
    MAX_RETRIES config - retry_count ≤ Z.of_nat budget →
    halts (retry_loop config api location radius place_type budget retry_count delay).
Proof.
  induction budget as [|budget IH]; intros rc d Hbudget; simpl;
    (destruct (Z.ltb_spec rc (MAX_RETRIES config)); [|apply halts_mret]).
  - lia.
  - apply halts_try_except.
    + apply halts_bind; [apply halts_try_block|intros _; apply halts_mret].
    + intros e. apply halts_bind; [apply halts_inner, halts_modify|]. intros _.
      destruct (MAX_RETRIES config <=? rc + 1).
      * apply halts_bind; [apply halts_inner, halts_modify|]. intros _.
        apply halts_bind; [apply halts_gets|intros ?; apply halts_mret].
      * apply halts_bind; [apply halts_inner, halts_sleep|]. intros _.
        apply IH. lia.
Qed.

Lemma calls_of_failing_events (q : Request) (e : exn) (n : nat) (retry_count : Z) (delay : Q) :
  calls_of (failing_events q e n retry_count delay) = replicate n q.
Proof.
  revert retry_count delay. induction n as [|n IH]; intros rc d; [done|].
  destruct n as [|n']; [done|].
  change (calls_of (failing_events q e (S (S n')) rc d))
    with (q :: calls_of (failing_events q e (S n') (rc + 1) (d * 2)%Q)).
  by rewrite IH.
Qed.

Lemma backoffs_of_failing_events (q : Request) (e : exn) (n : nat) (retry_count : Z) (delay : Q) :
  sleeps_of Backoff (failing_events q e n retry_count delay) = doubling delay (pred n).
Proof.
  revert retry_count delay. induction n as [|n IH]; intros rc d; [done|].
  destruct n as [|n']; [done|].
  change (sleeps_of Backoff (failing_events q e (S (S n')) rc d))
    with (d :: sleeps_of Backoff (failing_events q e (S n') (rc + 1) (d * 2)%Q)).
  by rewrite IH.
Qed.

Lemma only_backoffs_in_failing_events (q : Request) (e : exn) (n : nat)
    (retry_count : Z) (delay : Q) :
  sleeps_of Cooldown (failing_events q e n retry_count delay) = [] ∧
  sleeps_of RateLimit (failing_events q e n retry_count delay) = [].
Proof.
  revert retry_count delay. induction n as [|n IH]; intros rc d; [done|].
  destruct n as [|n']; [done|].
  change (sleeps_of Cooldown (failing_events q e (S (S n')) rc d))
    with (sleeps_of Cooldown (failing_events q e (S n') (rc + 1) (d * 2)%Q)).
  change (sleeps_of RateLimit (failing_events q e (S (S n')) rc d))
    with (sleeps_of RateLimit (failing_events q e (S n') (rc + 1) (d * 2)%Q)).
  apply IH.
Qed.

(** Each delay is twice the one before, and longer than it when the first
    delay is positive. *)
Lemma doubling_adjacent (n : nat) :
  ∀ (d : Q) (i : nat) (a b : Q),
    doubling d n !! i = Some a → doubling d n !! S i = Some b →
    b = (a * 2)%Q ∧ ((0 < d)%Q → (a < b)%Q).
Proof.
  induction n as [|n IH]; intros d i a b Ha Hb; [done|].
  destruct i as [|i]; simpl in Ha, Hb.
  - injection Ha as <-. destruct n as [|n]; [done|]. simpl in Hb. injection Hb as <-.
    split; [done|]. intros Hd.
    rewrite <- (Qmult_1_r d) at 1. rewrite Qmult_lt_l by done. by compute.
  - destruct (IH (d * 2)%Q i a b Ha Hb) as [Htwice Hlonger].
    split; [done|]. intros Hd. apply Hlonger.
    apply Qmult_lt_0_compat; [done|]. by compute.
Qed.

(** C6 (as the code has it): against an API that raises on every request,
    one search makes exactly MAX_RETRIES attempts (none when MAX_RETRIES is
    not positive), all with the same arguments, sleeps between consecutive
    attempts the initial retry delay and then each time the double of the
    delay before, which is a strictly longer one when the initial retry
    delay is positive, sleeps nothing else, and returns the empty result
    list without raising. *)
Theorem search_with_retry_api_down
    (config : Config) (api : Api) (location : float * float) (radius : Z)
    (place_type : option string) (fuel : nat) (m : machine) (e : exn) :
  (∀ k q, api k q = Fails e) →
  is_Exception e = true →
  (0 <= INITIAL_RETRY_DELAY_SECONDS config)%Q →
  fuel ≠ 0%nat →
  let attempts := Z.to_nat (MAX_RETRIES config) in
  ∃ evs,
    search_with_retry config api location radius place_type fuel m
      = (Ok [], after m evs attempts) ∧
    calls_of evs = replicate attempts (build_kwargs location radius place_type None) ∧
    sleeps_of Backoff evs = doubling (INITIAL_RETRY_DELAY_SECONDS config) (pred attempts) ∧
    (∀ i a b, sleeps_of Backoff evs !! i = Some a →
              sleeps_of Backoff evs !! S i = Some b →
              b = (a * 2)%Q ∧
              ((0 < INITIAL_RETRY_DELAY_SECONDS config)%Q → (a < b)%Q)) ∧
    sleeps_of Cooldown evs = [] ∧
    sleeps_of RateLimit evs = [].
Proof.
  intros Hdown He Hd Hfuel attempts.
  destruct fuel as [|fuel]; [done|].
  unfold search_with_retry, with_frame. simpl page_loop. fold attempts.
  destruct (decide (attempts = 0%nat)) as [Hzero|Hpos].
  - exists []. rewrite Hzero.
    rewrite (bind_ok _ _ _ _ _ (retry_loop_exhausted config api location radius
      place_type 0 0 _ (new_frame, m) ltac:(lia))).
    rewrite bind_frame_gets. simpl. by rewrite after_nothing.
  - exists (failing_events (build_kwargs location radius place_type None) e attempts 0
              (INITIAL_RETRY_DELAY_SECONDS config)).
    rewrite (bind_ok _ _ _ _ _ (retry_loop_gives_up config api location radius
      place_type e attempts Hdown He 0 _ new_frame m Hpos ltac:(lia) Hd)).
    split; [done|].
    split; [apply calls_of_failing_events|].
    rewrite backoffs_of_failing_events.
    split; [done|].
    split; [intros i a b; by apply doubling_adjacent|].
    apply only_backoffs_in_failing_events.
Qed.

Lemma status_warning_silent (r : Response) :
  calls_of (status_warning r) = [] ∧
  ∀ site, sleeps_of site (status_warning r) = [].
Proof. unfold status_warning. by destruct (success_status (status r)). Qed.

Lemma page_loop_next_page
    (config : Config) (api : Api) (location : float * float) (radius : Z)
    (place_type : option string) (fuel : nat) (fr : frame) (m : machine) (r : Response) :
  0 < MAX_RETRIES config →
  api (calls_made m) (build_kwargs location radius place_type (page_token fr)) = Responds r →
  (0 <= PAGINATION_DELAY_SECONDS config)%Q →
  (0 <= DELAY_BETWEEN_REQUESTS_SECONDS config)%Q →
  page_loop config api location radius place_type (S fuel) (fr, m) =
    let s := (accept_page r fr,
              after m
                ([Called (build_kwargs location radius place_type (page_token fr))]
                 ++ status_warning r ++
                 if truthy (next_page_token r)
                 then [Slept Cooldown (PAGINATION_DELAY_SECONDS config);
                       Slept RateLimit (DELAY_BETWEEN_REQUESTS_SECONDS config)]
                 else []) 1) in
    if truthy (next_page_token r)
    then page_loop config api location radius place_type fuel s
    else (Ok (all_results fr ++ default [] (results r)), s).
Proof.
  intros Hmax Hapi Hpag Hdelay. simpl page_loop.
  destruct (Z.to_nat (MAX_RETRIES config)) as [|budget] eqn:Hbudget; [lia|].
  rewrite (bind_ok _ _ _ _ _
             (retry_loop_breaks config api location radius place_type budget 0 _
                fr m r Hmax Hapi Hpag Hdelay)).
  rewrite bind_frame_gets. simpl.
  by destruct (truthy (next_page_token r)).
Qed.

(** C7: when the API answers the first request and the two that carry the
    cursor of the page before with a page each, the first two with a cursor
    and the third without, one search issues exactly these three requests,
    returns the three pages' results in order, waits the pagination cooldown
    (followed by the inter-request delay) after the first and after the
    second page, and does nothing after the third but log its status if it
    is an unexpected one. *)
Theorem search_with_retry_three_pages
    (config : Config) (api : Api) (location : float * float) (radius : Z)
    (place_type : option string) (fuel : nat) (m : machine) (r1 r2 r3 : Response) :
  let q1 := build_kwargs location radius place_type None in
  let q2 := build_kwargs location radius place_type (next_page_token r1) in
  let q3 := build_kwargs location radius place_type (next_page_token r2) in
  let wait := [Slept Cooldown (PAGINATION_DELAY_SECONDS config);
               Slept RateLimit (DELAY_BETWEEN_REQUESTS_SECONDS config)] in
  let evs := [Called q1] ++ status_warning r1 ++ wait ++
             [Called q2] ++ status_warning r2 ++ wait ++
             [Called q3] ++ status_warning r3 in
  api (calls_made m) q1 = Responds r1 → truthy (next_page_token r1) = true →
  api (1 + calls_made m)%nat q2 = Responds r2 → truthy (next_page_token r2) = true →
  api (2 + calls_made m)%nat q3 = Responds r3 → truthy (next_page_token r3) = false →
  0 < MAX_RETRIES config →
  (0 <= PAGINATION_DELAY_SECONDS config)%Q →
  (0 <= DELAY_BETWEEN_REQUESTS_SECONDS config)%Q →
  (3 ≤ fuel)%nat →
  search_with_retry config api location radius place_type fuel m
    = (Ok (default [] (results r1) ++ default [] (results r2) ++ default [] (results r3)),
       after m evs 3) ∧
  calls_of evs = [q1; q2; q3] ∧
  sleeps_of Cooldown evs =
    [PAGINATION_DELAY_SECONDS config; PAGINATION_DELAY_SECONDS config] ∧
  sleeps_of Backoff evs = [].
Proof.
  intros q1 q2 q3 wait evs H1 T1 H2 T2 H3 T3 Hmax Hpag Hdelay Hfuel.
  destruct (status_warning_silent r1) as [C1 S1].
  destruct (status_warning_silent r2) as [C2 S2].
  destruct (status_warning_silent r3) as [C3 S3].
  split; [|unfold evs, calls_of, sleeps_of in *;
           rewrite !omap_app, ?C1, ?C2, ?C3, ?S1, ?S2, ?S3; done].
  destruct fuel as [|[|[|fuel]]]; [lia..|].
  unfold search_with_retry, with_frame.
  rewrite (page_loop_next_page _ _ _ _ _ _ _ _ r1 Hmax); [|exact H1|done..].
  cbv zeta. rewrite T1.
  rewrite (page_loop_next_page _ _ _ _ _ _ _ _ r2 Hmax); [|exact H2|done..].
  cbv zeta. rewrite T2, after_after.
  rewrite (page_loop_next_page _ _ _ _ _ _ _ _ r3 Hmax); [|exact H3|done..].
  cbv zeta. rewrite T3, after_after. simpl snd.
  unfold evs, q1, q2, q3, wait. simpl. rewrite <- !app_assoc. simpl.
  by rewrite !app_nil_r, <- !app_assoc.
Qed.

(** ** A response's status does not steer the executor *)

Section Sim.
Context {S : Type} (RS : S → S → Prop).

Lemma sim_mret {A} (RA : A → A → Prop) (a1 a2 : A) :
  RA a1 a2 → sim RS RA (mret a1) (mret a2).
Proof. intros Ha s1 s2 Hs. by split. Qed.

Lemma sim_bind {A B} (RA : A → A → Prop) (RB : B → B → Prop)
    (c1 c2 : M S A) (f1 f2 : A → M S B) :
  sim RS RA c1 c2 → (∀ a1 a2, RA a1 a2 → sim RS RB (f1 a1) (f2 a2)) →
  sim RS RB (c1 ≫= f1) (c2 ≫= f2).
Proof.
  intros Hc Hf s1 s2 Hs. specialize (Hc s1 s2 Hs).
  unfold mbind, M_mbind, M_bind.
  destruct (c1 s1) as [[a1|e1|] t1], (c2 s2) as [[a2|e2|] t2]; try done.
  destruct Hc as [Ha Ht]. by apply Hf.
Qed.

Lemma sim_try_except {A} (RA : A → A → Prop) (b1 b2 : M S A) (h1 h2 : exn → M S A) :
  sim RS RA b1 b2 → (∀ e, sim RS RA (h1 e) (h2 e)) →
  sim RS RA (try_except b1 h1) (try_except b2 h2).
Proof.
  intros Hb Hh s1 s2 Hs. specialize (Hb s1 s2 Hs). unfold try_except.
  destruct (b1 s1) as [[a1|e1|] t1], (b2 s2) as [[a2|e2|] t2]; try done.
  destruct Hb as [<- Ht]. destruct (is_Exception e1); [by apply Hh|done].
Qed.

Lemma sim_raise {A} (RA : A → A → Prop) (e : exn) : sim RS RA (raise e) (raise e).
Proof. intros s1 s2 Hs. by split. Qed.

Lemma sim_out_of_fuel {A} (RA : A → A → Prop) : sim RS RA out_of_fuel out_of_fuel.
Proof. by intros s1 s2 Hs. Qed.
End Sim.

Lemma alike_refl (m : machine) : alike m m.
Proof. by repeat split. Qed.

Lemma alike_with_event (ev : event) (m1 m2 : machine) :
  alike m1 m2 → alike (with_event ev m1) (with_event ev m2).
Proof.
  intros (? & ? & ? & Htrace & ? & ?). repeat split; try done. simpl.
  unfold without_status_warnings in *. by rewrite !filter_app, Htrace.
Qed.

Lemma alike_status_warning (st : option string) (m1 m2 : machine) :
  alike m1 m2 → alike (with_event (Logged WARNING (ApiReturnedStatus st)) m1) m2.
Proof.
  intros (? & ? & ? & Htrace & ? & ?). repeat split; try done. simpl.
  unfold without_status_warnings in *. rewrite filter_app, Htrace.
  rewrite filter_cons_False by done. rewrite filter_nil. apply app_nil_r.
Qed.

Lemma alike_with_self (f : PlacesExtractor → PlacesExtractor) (m1 m2 : machine) :
  alike m1 m2 → alike (with_self f m1) (with_self f m2).
Proof.
  intros (Hself & ? & ? & ? & ? & ?). repeat split; try done. simpl. by rewrite Hself.
Qed.

Lemma alike_with_call (q : Request) (m1 m2 : machine) :
  alike m1 m2 → alike (with_call q m1) (with_call q m2).
Proof.
  intros (? & ? & Hcalls & Htrace & ? & ?). repeat split; try done; simpl.
  - by rewrite Hcalls.
  - unfold without_status_warnings in *. by rewrite !filter_app, Htrace.
Qed.

Lemma sim_inner {A} (RA : A → A → Prop) (c1 c2 : M machine A) :
  sim alike RA c1 c2 → sim alike_in_search RA (inner c1) (inner c2).
Proof.
  intros Hc [fr1 m1] [fr2 m2] [Hfr Hm]. simpl in Hfr, Hm. subst fr2.
  specialize (Hc m1 m2 Hm). unfold inner. simpl.
  destruct (c1 m1) as [[a1|e1|] t1], (c2 m2) as [[a2|e2|] t2]; try done.
  - destruct Hc. split; [done|by split].
  - destruct Hc. split; [done|by split].
Qed.

Lemma sim_log (l : level) (msg : log_msg) : sim alike eq (log l msg) (log l msg).
Proof. intros m1 m2 Hm. split; [done|]. by apply alike_with_event. Qed.

Lemma sim_sleep (site : sleep_site) (d : Q) : sim alike eq (sleep site d) (sleep site d).
Proof.
  intros m1 m2 Hm. unfold sleep. destruct (Qle_bool 0 d).
  - split; [done|]. by apply alike_with_event.
  - by split.
Qed.

Lemma sim_frame_gets {A} (g : frame → A) :
  sim alike_in_search eq (frame_gets g) (frame_gets g).
Proof. intros [fr1 m1] [fr2 m2] [Hfr Hm]. simpl in *. subst. split; [done|by split]. Qed.

Lemma sim_frame_modify (g : frame → frame) :
  sim alike_in_search eq (frame_modify g) (frame_modify g).
Proof. intros [fr1 m1] [fr2 m2] [Hfr Hm]. simpl in *. subst. split; [done|by split]. Qed.

(** The two APIs answer alike but for the status. *)
Lemma sim_places_nearby (api : Api) (q : Request) :
  sim alike (λ r1 r2, r2 = with_status_ok r1)
    (places_nearby api q) (places_nearby (as_success api) q).
Proof.
  intros m1 m2 Hm. unfold places_nearby, as_success.
  pose proof Hm as (_ & _ & Hcalls & _). rewrite <- Hcalls.
  destruct (api (calls_made m1) q) as [r|err]; (split; [done|]);
    by apply alike_with_call.
Qed.

Lemma sim_modify_self (f : PlacesExtractor → PlacesExtractor) :
  sim alike eq (modify (with_self f)) (modify (with_self f)).
Proof. intros m1 m2 Hm. split; [done|]. by apply alike_with_self. Qed.

Lemma sim_status_warning (st : option string) :
  sim alike_in_search eq (inner (log WARNING (ApiReturnedStatus st))) (mret tt).
Proof.
  intros [fr1 m1] [fr2 m2] [Hfr Hm]. simpl in *. subst.
  split; [done|]. split; [done|]. by apply alike_status_warning.
Qed.

Lemma sim_with_frame {A} (RA : A → A → Prop) (fr : frame) (c1 c2 : M (frame * machine) A) :
  sim alike_in_search RA c1 c2 → sim alike RA (with_frame fr c1) (with_frame fr c2).
Proof.
  intros Hc m1 m2 Hm. specialize (Hc (fr, m1) (fr, m2) (conj eq_refl Hm)).
  unfold with_frame.
  destruct (c1 (fr, m1)) as [[a1|e1|] t1], (c2 (fr, m2)) as [[a2|e2|] t2]; try done.
  - destruct Hc as [? [_ ?]]. by split.
  - destruct Hc as [? [_ ?]]. by split.
  - by destruct Hc as [_ ?].
Qed.

Section StatusBlind.
Variable config : Config.
Variable api : Api.
Variable location : float * float.
Variable radius : Z.
Variable place_type : option string.

Lemma sim_try_block :
  sim alike_in_search eq
    (try_block config api location radius place_type)
    (try_block config (as_success api) location radius place_type).
Proof.
  unfold try_block.
  eapply sim_bind; [apply sim_inner, sim_modify_self|]. intros _ _ _.
  eapply sim_bind; [apply sim_frame_gets|]. intros token ? <-.
  eapply sim_bind; [apply sim_inner, sim_places_nearby|]. intros r ? ->.
  eapply (sim_bind _ eq).
  { change (success_status (status (with_status_ok r))) with true.
    destruct (success_status (status r)); [by apply sim_mret|apply sim_status_warning]. }
  intros _ _ _.
  eapply sim_bind; [apply (sim_frame_modify (accept_page r))|]. intros _ _ _.
  change (next_page_token (with_status_ok r)) with (next_page_token r).
  destruct (truthy (next_page_token r)); [|by apply sim_mret].
  eapply sim_bind; [apply sim_inner, sim_sleep|]. intros _ _ _.
  apply sim_inner, sim_sleep.
Qed.

Lemma sim_retry_loop (budget : nat) :
  ∀ (retry_count : Z) (delay : Q),
    sim alike_in_search eq
      (retry_loop config api location radius place_type budget retry_count delay)
      (retry_loop config (as_success api) location radius place_type budget
         retry_count delay).
Proof.
  induction budget as [|budget IH]; intros rc d; simpl;
    (destruct (rc <? MAX_RETRIES config); [|by apply sim_mret]).
  - apply sim_out_of_fuel.
  - apply sim_try_except.
    + eapply sim_bind; [apply sim_try_block|]. intros _ _ _. by apply sim_mret.
    + intros e.
      eapply sim_bind; [apply sim_inner, sim_log|]. intros _ _ _.
      destruct (MAX_RETRIES config <=? rc + 1).
      * eapply sim_bind; [apply sim_inner, sim_log|]. intros _ _ _.
        eapply sim_bind; [apply sim_frame_gets|]. intros rs ? <-. by apply sim_mret.
      * eapply sim_bind; [apply sim_inner, sim_sleep|]. intros _ _ _. apply IH.
Qed.

Lemma sim_page_loop (fuel : nat) :
  sim alike_in_search eq
    (page_loop config api location radius place_type fuel)
    (page_loop config (as_success api) location radius place_type fuel).
Proof.
  induction fuel as [|fuel IH]; simpl; [apply sim_out_of_fuel|].
  eapply sim_bind; [apply sim_retry_loop|]. intros exit ? <-.
  destruct exit as [| |rs]; [| |by apply sim_mret].
  - eapply sim_bind; [apply sim_frame_gets|]. intros token ? <-.
    destruct (truthy token); [apply IH|apply sim_frame_gets].
  - eapply sim_bind; [apply sim_frame_gets|]. intros token ? <-.
    destruct (truthy token); [apply IH|apply sim_frame_gets].
Qed.
End StatusBlind.

Lemma status_error_is_Exception (st : option string) :
  is_Exception (status_error st) = true.
Proof. destruct st as [st|]; [|done]. simpl. by destruct (String.eqb _ _). Qed.



(** A service that answers every request with the same body of a status
    other than OK and ZERO_RESULTS: the search makes MAX_RETRIES attempts
    with doubling backoffs and returns the empty list. *)
Lemma search_with_retry_denied
    (config : Config) (service : Service) (location : float * float) (radius : Z)
    (place_type : option string) (fuel : nat) (m : machine) (body : Response) :
  (∀ n q, service n q = Answers body) →
  success_status (status body) = false →
  0 < MAX_RETRIES config →
  (0 <= INITIAL_RETRY_DELAY_SECONDS config)%Q →
  fuel ≠ 0%nat →
  let attempts := Z.to_nat (MAX_RETRIES config) in
  ∃ evs,
    search_with_retry config (client service) location radius place_type fuel m
      = (Ok [], after m evs attempts) ∧
    calls_of evs = replicate attempts (build_kwargs location radius place_type None) ∧
    sleeps_of Backoff evs = doubling (INITIAL_RETRY_DELAY_SECONDS config) (pred attempts).
Proof.
  intros Hdenied Hstatus Hmax Hd Hfuel attempts.
  assert (attempts ≠ 0%nat) as Hpos by (unfold attempts; lia).
  destruct fuel as [|fuel]; [done|].
  unfold search_with_retry, with_frame. simpl page_loop. fold attempts.
  exists (failing_events (build_kwargs location radius place_type None)
            (status_error (status body)) attempts 0
            (INITIAL_RETRY_DELAY_SECONDS config)).
  rewrite (bind_ok _ _ _ _ _ (retry_loop_gives_up config (client service) location
    radius place_type (status_error (status body)) attempts
    ltac:(intros k q; unfold client; by rewrite Hdenied, Hstatus)
    (status_error_is_Exception _) 0 _ new_frame m Hpos ltac:(lia) Hd)).
  split; [done|].
  split; [apply calls_of_failing_events|apply backoffs_of_failing_events].
Qed.

(** The warning branch of the executor.  Should a response of another
    status ever be handed over, it would not steer the search: a search
    against any API and the same search against the API that gives the same
    answers with status OK end the same way (same result list, or same
    exception) with the same requests issued, the same delays slept, the
    same retries and the same extractor state; the runs differ only in the
    warnings logged.  And a response of any status ends the retry loop at
    once: one request, no backoff, the page accepted. *)
Theorem status_does_not_steer_search
    (config : Config) (api : Api) (location : float * float) (radius : Z)
    (place_type : option string) (fuel : nat) (m : machine) :
  let run := search_with_retry config api location radius place_type fuel m in
  let run' := search_with_retry config (as_success api) location radius place_type fuel m in
  (run.1 = run'.1 ∧ alike run.2 run'.2) ∧
  ∀ (fr : frame) (r : Response) (budget : nat) (retry_count : Z) (delay : Q),
    retry_count < MAX_RETRIES config →
    api (calls_made m) (build_kwargs location radius place_type (page_token fr))
      = Responds r →
    (0 <= PAGINATION_DELAY_SECONDS config)%Q →
    (0 <= DELAY_BETWEEN_REQUESTS_SECONDS config)%Q →
    ∃ evs,
      retry_loop config api location radius place_type (S budget) retry_count delay
          (fr, m)
        = (Ok Broke, (accept_page r fr, after m evs 1)) ∧
      calls_of evs = [build_kwargs location radius place_type (page_token fr)] ∧
      sleeps_of Backoff evs = [].
Proof.
  intros run run'. split.
  - pose proof (sim_with_frame eq new_frame _ _
                  (sim_page_loop config api location radius place_type fuel)
                  m m (alike_refl m)) as Hsim.
    fold (search_with_retry config api location radius place_type fuel) in Hsim.
    fold (search_with_retry config (as_success api) location radius place_type fuel)
      in Hsim.
    fold run run' in Hsim.
    destruct run as [[a1|e1|] t1], run' as [[a2|e2|] t2]; try done.
    + destruct Hsim as [-> ?]. by split.
    + destruct Hsim as [-> ?]. by split.
  - intros fr r budget rc d Hrc Hapi Hpag Hdelay. eexists. split.
    + by apply retry_loop_breaks.
    + destruct (status_warning_silent r) as [Hcalls Hsleeps].
      unfold calls_of, sleeps_of in *. rewrite !omap_app, Hcalls, Hsleeps.
      by destruct (truthy (next_page_token r)).
Qed.

(** ** Loading a missing or damaged checkpoint *)

Section Catchable.
Context {S : Type}.

Lemma catchable_bind {A B} (c : M S A) (f : A → M S B) :
  catchable c → (∀ a, catchable (f a)) → catchable (c ≫= f).
Proof.
  intros Hc Hf s. specialize (Hc s). unfold mbind, M_mbind, M_bind.
  destruct (c s) as [[a|e|] s']; [apply Hf|done..].
Qed.

Lemma catchable_mret {A} (a : A) : catchable (mret a : M S A).
Proof. by intros s. Qed.

Lemma catchable_gets {A} (g : S → A) : catchable (gets g).
Proof. by intros s. Qed.

Lemma catchable_modify (g : S → S) : catchable (modify g).
Proof. by intros s. Qed.

Lemma catchable_getitem {A} (key : string) (v : option A) :
  catchable (lift_result (getitem key v) : M S A).
Proof. intros s. by destruct v. Qed.

Lemma catchable_for_each {A} (l : list A) (body : A → M S unit) :
  (∀ x, catchable (body x)) → catchable (for_each l body).
Proof.
  intros Hbody. induction l as [|x l IH]; [apply catchable_mret|].
  simpl. apply catchable_bind; [apply Hbody|done].
Qed.

(** A [try] whose handler returns makes a catchable body return. *)
Lemma try_except_returns {A} (body : M S A) (handler : exn → M S A) (s : S) :
  catchable body → (∀ e t, ∃ a t', handler e t = (Ok a, t')) →
  ∃ a s', try_except body handler s = (Ok a, s').
Proof.
  intros Hbody Hh. specialize (Hbody s). unfold try_except.
  destruct (body s) as [[a|e|] t]; simpl in Hbody; [by eexists _, _| |done].
  rewrite Hbody. apply Hh.
Qed.
End Catchable.

Lemma load_checkpoint_absent (m : machine) :
  checkpoint_file m = Absent → load_checkpoint m = (Ok None, m).
Proof. intros Hfile. unfold load_checkpoint. by rewrite bind_gets, Hfile. Qed.

Lemma load_checkpoint_unparseable (m : machine) :
  checkpoint_file m = Unparseable →
  load_checkpoint m =
    (Ok None, with_event (Logged ERROR (FailedToLoadCheckpoint ValueError)) m).
Proof. intros Hfile. unfold load_checkpoint. by rewrite bind_gets, Hfile. Qed.

(** Whatever the file holds, [load_checkpoint] returns. *)
Lemma load_checkpoint_returns (m : machine) :
  ∃ resume m', load_checkpoint m = (Ok resume, m').
Proof.
  unfold load_checkpoint. rewrite bind_gets.
  destruct (checkpoint_file m) as [| |data] eqn:Hfile; [by eexists _, _|..];
    (apply try_except_returns; [|by eexists _, _]).
  - by intros s.
  - apply catchable_bind; [by intros s|]. intros checkpoint_data.
    repeat first
      [ apply catchable_mret | apply catchable_gets | apply catchable_modify
      | apply catchable_getitem
      | apply catchable_for_each; intros place_dict
      | apply catchable_bind; [|intros ?] ].
    intros s. unfold Place_of_dict.
    by destruct (d_place_id place_dict), (d_name place_dict), (d_types place_dict),
      (d_latitude place_dict), (d_longitude place_dict).
Qed.

(** A file that is damaged after its [seen_place_ids] key is reported as no
    checkpoint, but the ids it lists have replaced the extractor's. *)
Lemma load_checkpoint_keeps_ids (m : machine) (checkpoint : CheckpointDict)
    (ids : list string) :
  checkpoint_file m =
    Parsed {| d_checkpoint := Some checkpoint; d_seen_place_ids := Some ids;
              d_places := None |} →
  load_checkpoint m =
    (Ok None,
     with_event (Logged ERROR (FailedToLoadCheckpoint (KeyError "places")))
       (with_self (set_seen_place_ids (list_to_set ids)) m)).
Proof.
  intros Hfile. unfold load_checkpoint. rewrite bind_gets, Hfile.
  unfold try_except. by run.
Qed.

(** C10 (the code's defect): the checkpoint file [partial_checkpoint] has
    lost its [places] key.  Loading it into a fresh extractor is reported as
    no checkpoint and logged, yet the seen-id set is no longer empty: it
    holds the id the file lists.  The run that follows restarts from cell 0,
    takes the kiosk for a duplicate and writes an output without it; the
    same run with no checkpoint file collects it. *)
Theorem load_checkpoint_partial_file :
  let loaded := load_checkpoint (boot "t1" (Parsed partial_checkpoint) None) in
  let rerun := main one_cell_config two_places_api 3
                 (boot "t1" (Parsed partial_checkpoint) None) in
  let clean := main one_cell_config two_places_api 3 (boot "t1" Absent None) in
  loaded.1 = Ok None ∧
  trace loaded.2 = [Logged ERROR (FailedToLoadCheckpoint (KeyError "places"))] ∧
  seen_place_ids (self loaded.2) = {["id-kiosk"]} ∧
  places (self loaded.2) = ∅ ∧
  rerun.1 = Ok 0 ∧
  output_ids rerun.2 = Some {["id-cafe"]} ∧
  total_duplicates_skipped (self rerun.2) = 1 ∧
  clean.1 = Ok 0 ∧
  output_ids clean.2 = Some ({["id-cafe"]} ∪ {["id-kiosk"]}).
Proof. vm_compute. repeat split. Qed.

(** ** Interrupting a run *)

Lemma on_interrupt_saves_current_cell (e : exn) (m : machine) :
  saved_last_completed (checkpoint_file (on_interrupt e m).2)
    = Some (current_cell_index (self m)).
Proof. unfold on_interrupt. by destruct (is_Exception e). Qed.

(** C1 (the code's defect): one cell, searched for cafes and then without a
    filter.  The operator interrupts the second search.  The checkpoint saved
    at that moment records cell 0 as the last completed cell although its
    unfiltered search never ran to its end; the resumed run starts at cell 1,
    issues no request at all and writes an output without the kiosk, which
    the run that is never interrupted collects. *)
Theorem interrupted_cell_is_skipped_on_resume :
  let stopped := main one_cell_config interrupted_api 3 (boot "t0" Absent None) in
  let resumed := main one_cell_config two_places_api 3
                   (boot "t1" (checkpoint_file stopped.2) (output_file stopped.2)) in
  let straight := main one_cell_config two_places_api 3 (boot "t0" Absent None) in
  stopped.1 = Ok 1 ∧
  saved_last_completed (checkpoint_file stopped.2) = Some 0 ∧
  seen_place_ids (self stopped.2) = {["id-cafe"]} ∧
  resumed.1 = Ok 0 ∧
  calls_of (trace resumed.2) = [] ∧
  output_ids resumed.2 = Some {["id-cafe"]} ∧
  straight.1 = Ok 0 ∧
  output_ids straight.2 = Some ({["id-cafe"]} ∪ {["id-kiosk"]}).
Proof. vm_compute. repeat split. Qed.

(** ** Every reachable extractor is keyed by id *)

Section Keeps.
Context {S : Type} (P : S → Prop).

Lemma keeps_bind {A B} (c : M S A) (f : A → M S B) :
  keeps P c → (∀ a, keeps P (f a)) → keeps P (c ≫= f).
Proof.
  intros Hc Hf s Hs. specialize (Hc s Hs). unfold mbind, M_mbind, M_bind.
  destruct (c s) as [[a|e|] s']; [by apply Hf|done..].
Qed.

Lemma keeps_pure {A} (r : result A) : keeps P (lift_result r).
Proof. by intros s Hs. Qed.

Lemma keeps_mret {A} (a : A) : keeps P (mret a : M S A).
Proof. by intros s Hs. Qed.

Lemma keeps_gets {A} (g : S → A) : keeps P (gets g).
Proof. by intros s Hs. Qed.

Lemma keeps_raise {A} (e : exn) : keeps P (raise e : M S A).
Proof. by intros s Hs. Qed.

Lemma keeps_out_of_fuel {A} : keeps P (out_of_fuel : M S A).
Proof. by intros s Hs. Qed.

Lemma keeps_modify (g : S → S) : (∀ s, P s → P (g s)) → keeps P (modify g).
Proof. intros Hg s Hs. by apply Hg. Qed.

Lemma keeps_try_except {A} (body : M S A) (handler : exn → M S A) :
  keeps P body → (∀ e, keeps P (handler e)) → keeps P (try_except body handler).
Proof.
  intros Hb Hh s Hs. specialize (Hb s Hs). unfold try_except.
  destruct (body s) as [[a|e|] s']; [done| |done].
  destruct (is_Exception e); [by apply Hh|done].
Qed.

Lemma keeps_for_each {A} (l : list A) (body : A → M S unit) :
  (∀ x, keeps P (body x)) → keeps P (for_each l body).
Proof.
  intros Hbody. induction l as [|x l IH]; [apply keeps_mret|].
  simpl. apply keeps_bind; [apply Hbody|done].
Qed.
End Keeps.

Lemma keeps_inner {A} (P : machine → Prop) (c : M machine A) :
  keeps P c → keeps (λ s : frame * machine, P s.2) (inner c).
Proof.
  intros Hc [fr m] Hm. specialize (Hc m Hm). unfold inner. simpl.
  by destruct (c m) as [r m'].
Qed.

Lemma keeps_with_frame {A} (P : machine → Prop) (fr : frame) (c : M (frame * machine) A) :
  keeps (λ s : frame * machine, P s.2) c → keeps P (with_frame fr c).
Proof.
  intros Hc m Hm. specialize (Hc (fr, m) Hm). unfold with_frame.
  by destruct (c (fr, m)) as [r s'].
Qed.

Lemma well_keyed_with_event (ev : event) (m : machine) :
  well_keyed m → well_keyed (with_event ev m).
Proof. done. Qed.

Lemma keeps_log (l : level) (msg : log_msg) : keeps well_keyed (log l msg).
Proof. by apply keeps_modify. Qed.

Lemma keeps_sleep (site : sleep_site) (d : Q) : keeps well_keyed (sleep site d).
Proof. unfold sleep. destruct (Qle_bool 0 d); [by apply keeps_modify|apply keeps_raise]. Qed.

Lemma keeps_places_nearby (api : Api) (q : Request) :
  keeps well_keyed (places_nearby api q).
Proof. intros m Hm. unfold places_nearby. by destruct (api (calls_made m) q). Qed.

Lemma keeps_process_result (result : RawResult) : keeps well_keyed (process_result result).
Proof. intros m Hm. by apply process_result_keyed. Qed.

Lemma keeps_save_checkpoint : keeps well_keyed save_checkpoint.
Proof. by intros m Hm. Qed.

Lemma keeps_save_final_output : keeps well_keyed save_final_output.
Proof. by intros m Hm. Qed.

Lemma keeps_load_checkpoint : keeps well_keyed load_checkpoint.
Proof.
  unfold load_checkpoint. apply keeps_bind; [apply keeps_gets|]. intros f.
  destruct f; [apply keeps_mret|..];
    (apply keeps_try_except;
     [|intros e; apply keeps_bind; [apply keeps_log|intros _; apply keeps_mret]]);
    repeat first
      [ apply keeps_mret | apply keeps_gets | apply keeps_pure | apply keeps_log
      | apply keeps_modify; intros m Hm; first [exact Hm | by apply keyed_by_id_store]
      | apply keeps_for_each; intros place_dict
      | apply keeps_bind; [|intros ?] ].
Qed.

Section KeepsEngine.
Variable config : Config.
Variable api : Api.
Variable fuel : nat.

Local Abbreviation in_search := (λ s : frame * machine, well_keyed s.2).

Lemma keeps_try_block (location : float * float) (radius : Z) (place_type : option string) :
  keeps in_search (try_block config api location radius place_type).
Proof.
  unfold try_block.
  repeat first
    [ apply keeps_mret
    | apply keeps_inner;
      first [ apply keeps_log | apply keeps_sleep | apply keeps_places_nearby
            | by apply keeps_modify ]
    | by apply keeps_gets
    | by apply keeps_modify
    | apply keeps_bind; [|intros ?]
    | match goal with |- keeps _ (if ?b then _ else _) => destruct b end ].
Qed.

Lemma keeps_retry_loop (location : float * float) (radius : Z) (place_type : option string)
    (budget : nat) :
  ∀ retry_count delay,
    keeps in_search
      (retry_loop config api location radius place_type budget retry_count delay).
Proof.
  induction budget as [|budget IH]; intros rc d; simpl;
    (destruct (rc <? MAX_RETRIES config); [|apply keeps_mret]).
  - apply keeps_out_of_fuel.
  - apply keeps_try_except.
    + apply keeps_bind; [apply keeps_try_block|intros _; apply keeps_mret].
    + intros e. apply keeps_bind; [apply keeps_inner, keeps_log|]. intros _.
      destruct (MAX_RETRIES config <=? rc + 1).
      * apply keeps_bind; [apply keeps_inner, keeps_log|]. intros _.
        apply keeps_bind; [by apply keeps_gets|intros ?; apply keeps_mret].
      * apply keeps_bind; [apply keeps_inner, keeps_sleep|intros _; apply IH].
Qed.

Lemma keeps_search_with_retry (location : float * float) (radius : Z)
    (place_type : option string) :
  keeps well_keyed (search_with_retry config api location radius place_type fuel).
Proof.
  apply keeps_with_frame. induction fuel as [|n IH]; simpl; [apply keeps_out_of_fuel|].
  apply keeps_bind; [apply keeps_retry_loop|]. intros [| |rs]; [| |apply keeps_mret];
    (apply keeps_bind; [by apply keeps_gets|]; intros token;
     destruct (truthy token); [apply IH|by apply keeps_gets]).
Qed.

Lemma keeps_search_grid_cell (cell : GridCell) :
  keeps well_keyed (search_grid_cell config api fuel cell).
Proof.
  apply keeps_for_each. intros place_type.
  apply keeps_bind; [apply keeps_search_with_retry|]. intros results.
  apply keeps_bind; [apply keeps_for_each, keeps_process_result|]. intros _.
  apply keeps_sleep.
Qed.

Lemma keeps_extract_all_places (grid : list GridCell) (start_from : Z) :
  keeps well_keyed (extract_all_places config api fuel grid start_from).
Proof.
  apply keeps_for_each. intros idx.
  apply keeps_bind; [apply keeps_pure|]. intros cell.
  apply keeps_bind; [by apply keeps_modify|]. intros _.
  apply keeps_bind; [apply keeps_search_grid_cell|]. intros _.
  apply keeps_bind.
  - unfold checkpoint_due. destruct (ENABLE_CHECKPOINTING config); [|apply keeps_mret].
    destruct (CHECKPOINT_INTERVAL config =? 0); [apply keeps_raise|apply keeps_mret].
  - intros [|]; [apply keeps_save_checkpoint|apply keeps_mret].
Qed.

(** Whatever the API does and whatever the checkpoint file holds, a process
    ends with every collected Place stored under its own id. *)
Lemma main_well_keyed (m : machine) :
  well_keyed m → well_keyed (main config api fuel m).2.
Proof.
  revert m. change (keeps well_keyed (main config api fuel)). unfold main.
  destruct (api_key_missing config); [apply keeps_mret|].
  apply keeps_bind; [apply keeps_pure|]. intros grid.
  apply keeps_bind; [apply keeps_pure|]. intros _.
  apply keeps_bind; [apply keeps_modify; intros m _; apply keyed_by_id_new|]. intros _.
  apply keeps_bind.
  { destruct (ENABLE_CHECKPOINTING config); [|apply keeps_mret].
    apply keeps_bind; [apply keeps_load_checkpoint|intros ?; apply keeps_mret]. }
  intros resume_from m Hm. unfold try_main.
  assert (keeps well_keyed
            (extract_all_places config api fuel grid resume_from ;;
             save_final_output ;;
             (if ENABLE_CHECKPOINTING config then remove_checkpoint_file else mret tt) ;;
             log INFO ExtractionFinished ;;
             (mret 0 : M machine Z))) as Hbody.
  { apply keeps_bind; [apply keeps_extract_all_places|]. intros _.
    apply keeps_bind; [apply keeps_save_final_output|]. intros _.
    apply keeps_bind.
    - destruct (ENABLE_CHECKPOINTING config); [|apply keeps_mret].
      unfold remove_checkpoint_file. apply keeps_bind; [apply keeps_gets|].
      intros [| |]; [apply keeps_mret|..];
        (apply keeps_bind; [by apply keeps_modify|intros _; apply keeps_log]).
    - intros _. apply keeps_bind; [apply keeps_log|intros _; apply keeps_mret]. }
  specialize (Hbody m Hm).
  match goal with |- context [match ?run with _ => _ end] =>
    destruct run as [[a|e|] m'] eqn:Hrun end; simpl in Hbody; try done.
  unfold on_interrupt.
  by destruct (is_Exception e).
Qed.
End KeepsEngine.

(** * The claims on concrete inputs *)

(** C5 fails as stated: with zero rows the generator raises. *)
Lemma generate_grid_zero_rows :
  generate_grid (configured 0 10 []) = Raise ZeroDivisionError.
Proof. reflexivity. Qed.

(** C6 fails as stated: from an initial retry delay of 0 the four backoffs
    between the five attempts are all 0, so none is longer than the one
    before. *)
Lemma backoff_from_zero_does_not_grow :
  let run := search_with_retry (with_initial_retry_delay 0 default_config)
               failing_api centre 1000 None 3 (boot "t0" Absent None) in
  run.1 = Ok [] ∧
  length (calls_of (trace run.2)) = 5%nat ∧
  sleeps_of Backoff (trace run.2) = [0; 0; 0; 0]%Q.
Proof. vm_compute. repeat split. Qed.

(** C9 fails as stated: dropping a record without id changes no field of
    the extractor, so no counter has counted it; it leaves one log line. *)
Lemma record_without_id_is_not_counted :
  let run := process_result nameless (boot "t0" Absent None) in
  run.1 = Ok tt ∧
  self run.2 = new_extractor ∧
  trace run.2 = [Logged WARNING (PlaceWithoutPlaceId "Stall")].
Proof. vm_compute. repeat split. Qed.

Lemma checkpoint_round_trip_witness :
  keyed_by_id (self collected) ∧
  ∃ last loader',
    saved_last_completed (checkpoint_file (save_checkpoint collected).2) = Some last ∧
    load_checkpoint (boot "t1" (checkpoint_file (save_checkpoint collected).2) None)
      = (Ok (Some (last + 1)), loader') ∧
    seen_place_ids (self loader') = seen_place_ids (self collected) ∧
    places (self loader') = places (self collected) ∧
    total_api_calls (self loader') = total_api_calls (self collected) ∧
    total_duplicates_skipped (self loader') = total_duplicates_skipped (self collected).
Proof.
  assert (keyed_by_id (self collected)) as Hkey.
  { unfold keyed_by_id. apply (bool_decide_unpack _). vm_compute. exact I. }
  split; [exact Hkey|].
  apply (checkpoint_round_trip collected
           (boot "t1" (checkpoint_file (save_checkpoint collected).2) None) Hkey).
  - apply map_empty_subseteq.
  - reflexivity.
Defined.

Lemma ingest_same_id_repeatedly_witness :
  ∃ m',
    for_each (cafe_first :: cafe_later) process_result (boot "t0" Absent None)
      = (Ok tt, m') ∧
    places (self m') = <["id-cafe" := place_of_result "id-cafe" cafe_first]> ∅ ∧
    seen_place_ids (self m') = {["id-cafe"]} ∪ ∅ ∧
    total_duplicates_skipped (self m') = 0 + Z.of_nat (length cafe_later) ∧
    total_api_calls (self m') = 0 ∧
    trace m' = [].
Proof.
  apply (ingest_same_id_repeatedly "id-cafe" cafe_first cafe_later
           (boot "t0" Absent None)).
  - discriminate.
  - reflexivity.
  - repeat constructor.
  - apply not_elem_of_empty.
Defined.

Lemma generate_grid_row_major_witness :
  ∃ cells,
    generate_grid default_config = Ok cells ∧
    Z.of_nat (length cells) = 10 * 10 ∧
    ∀ r c, 0 ≤ r < 10 → 0 ≤ c < 10 →
      cells !! Z.to_nat (r * 10 + c) =
        Some {| row := r; col := c;
                center_lat :=
                  (BBOX_SOUTH default_config + (float_of_int r + 0.5) *
                   ((BBOX_NORTH default_config - BBOX_SOUTH default_config)
                      / float_of_int 10))%float;
                center_lng :=
                  (BBOX_WEST default_config + (float_of_int c + 0.5) *
                   ((BBOX_EAST default_config - BBOX_WEST default_config)
                      / float_of_int 10))%float |}.
Proof. apply (generate_grid_row_major default_config); reflexivity. Defined.

Lemma generate_grid_degenerate_witness :
  generate_grid (configured (-1) 10 []) = Ok [].
Proof.
  apply (generate_grid_degenerate (configured (-1) 10 [])).
  left. discriminate.
Defined.

Lemma search_with_retry_api_down_witness :
  ∃ evs,
    search_with_retry default_config failing_api centre 1000 None 3
        (boot "t0" Absent None)
      = (Ok [], after (boot "t0" Absent None) evs 5) ∧
    calls_of evs = replicate 5 (build_kwargs centre 1000 None None) ∧
    sleeps_of Backoff evs = doubling 1 4 ∧
    (∀ i a b, sleeps_of Backoff evs !! i = Some a →
              sleeps_of Backoff evs !! S i = Some b →
              b = (a * 2)%Q ∧
              ((0 < INITIAL_RETRY_DELAY_SECONDS default_config)%Q → (a < b)%Q)) ∧
    sleeps_of Cooldown evs = [] ∧
    sleeps_of RateLimit evs = [].
Proof.
  apply (search_with_retry_api_down default_config failing_api centre 1000 None 3
           (boot "t0" Absent None) (ApiError "timeout")).
  - reflexivity.
  - reflexivity.
  - discriminate.
  - discriminate.
Defined.

Lemma search_with_retry_three_pages_witness :
  let run := search_with_retry default_config three_page_api centre 1000 None 3
               (boot "t0" Absent None) in
  run.1 = Ok [raw (Some "p1") (Some "One"); raw (Some "p2") (Some "Two");
              raw (Some "p3") (Some "Three")] ∧
  calls_of (trace run.2) =
    [build_kwargs centre 1000 None None;
     build_kwargs centre 1000 None (Some "cursor-1");
     build_kwargs centre 1000 None (Some "cursor-2")] ∧
  sleeps_of Cooldown (trace run.2) = [5 # 2; 5 # 2]%Q ∧
  last (trace run.2) = Some (Called (build_kwargs centre 1000 None (Some "cursor-2"))).
Proof.
  destruct (search_with_retry_three_pages default_config three_page_api centre 1000
              None 3 (boot "t0" Absent None)
              (page [raw (Some "p1") (Some "One")] (Some "cursor-1"))
              (page [raw (Some "p2") (Some "Two")] (Some "cursor-2"))
              (page [raw (Some "p3") (Some "Three")] None)
              eq_refl eq_refl eq_refl eq_refl eq_refl eq_refl
              ltac:(reflexivity) ltac:(discriminate) ltac:(discriminate)
              ltac:(lia)) as (Hrun & Hcalls & Hcool & _).
  cbv zeta. rewrite Hrun. repeat split.
Defined.

Lemma ingest_without_id_witness :
  ∃ m',
    process_result nameless (boot "t0" Absent None) = (Ok tt, m') ∧
    self m' = new_extractor ∧
    trace m' = [] ++ [Logged WARNING (PlaceWithoutPlaceId "Stall")].
Proof. apply (ingest_without_id nameless (boot "t0" Absent None)). reflexivity. Defined.


(** A denied search and a search over a dead line run alike: five requests,
    backoffs of 1, 2, 4 and 8 seconds, an empty result. *)
Lemma denied_request_is_retried :
  let denied := search_with_retry default_config (client denying_service) centre 1000
                  None 3 (boot "t0" Absent None) in
  let failed := search_with_retry default_config (client unreachable_service) centre
                  1000 None 3 (boot "t0" Absent None) in
  denied = failed ∧
  denied.1 = Ok [] ∧
  length (calls_of (trace denied.2)) = 5%nat ∧
  sleeps_of Backoff (trace denied.2) = [1; 2; 4; 8]%Q.
Proof. vm_compute. repeat split. Qed.

(* ====================================================================== *)
(** * Further properties of the engine *)


(** ** Checkpoint store *)

(** X1: the values of a Place dictionary keyed by id, which is what
    [save_checkpoint] and [save_final_output] serialise, hold every Place once
    and no two Places with the same id. *)
Theorem places_values_unique_ids (x : PlacesExtractor) :
  keyed_by_id x →
  NoDup (place_id <$> places_values x) ∧
  length (places_values x) = size (places x).
Proof.
  intros Hkey. unfold places_values. split.
  - replace (place_id <$> (map_to_list (places x)).*2)
      with ((map_to_list (places x)).*1).
    + apply NoDup_fst_map_to_list.
    + rewrite <- list_fmap_compose. apply list_fmap_ext.
      intros n [k p] Hkp. simpl.
      apply list_elem_of_lookup_2, elem_of_map_to_list in Hkp.
      by rewrite (Hkey k p Hkp).
  - by rewrite length_fmap, length_map_to_list.
Qed.

(** ** Deduplicating collector *)

Lemma process_result_cases (result : RawResult) (m : machine) :
  process_result result m =
    (Ok tt,
     if truthy (raw_place_id result) then
       if bool_decide (default "" (raw_place_id result) ∈ seen_place_ids (self m))
       then with_self count_duplicate m
       else with_self (add_place (place_of_result (default "" (raw_place_id result))
                                    result)) m
     else with_event (Logged WARNING
                        (PlaceWithoutPlaceId (default "unknown" (raw_name result)))) m).
Proof.
  unfold process_result. destruct (truthy (raw_place_id result)); [|done].
  simpl. rewrite bind_gets. by case_bool_decide.
Qed.

Lemma ids_of_cons (r : RawResult) (rs : list RawResult) :
  ids_of (r :: rs) =
    if truthy (raw_place_id r) then default "" (raw_place_id r) :: ids_of rs
    else ids_of rs.
Proof.
  unfold ids_of. simpl. destruct (truthy (raw_place_id r)) eqn:Hid; [|done].
  by destruct (raw_place_id r).
Qed.

(** X2: ingesting any list of results never raises, and accounts for every
    result that has an id exactly once: it adds a Place or it raises the
    duplicate counter.  The seen-id set grows by exactly the ids met, and
    stays a superset of the stored ids; the API-call counter is untouched. *)
Theorem ingest_accounting (rs : list RawResult) (m : machine) :
  places_seen m →
  ∃ m',
    for_each rs process_result m = (Ok tt, m') ∧
    places_seen m' ∧
    seen_place_ids (self m') = seen_place_ids (self m) ∪ list_to_set (ids_of rs) ∧
    Z.of_nat (size (places (self m'))) + total_duplicates_skipped (self m') =
      Z.of_nat (size (places (self m))) + total_duplicates_skipped (self m)
        + Z.of_nat (length (ids_of rs)) ∧
    total_api_calls (self m') = total_api_calls (self m).
Proof.
  revert m. induction rs as [|r rs IH]; intros m Hm.
  - exists m. repeat split; [done| |simpl; lia].
    unfold ids_of. simpl. set_solver.
  - rewrite ids_of_cons. cbn [for_each].
    rewrite (bind_ok _ _ _ _ _ (process_result_cases r m)).
    unfold places_seen in *.
    destruct (truthy (raw_place_id r)) eqn:Hid.
    + case_bool_decide as Hseen.
      * destruct (IH (with_self count_duplicate m)) as (m' & Hrun & ? & Hs & Hn & ?);
          [done|].
        exists m'. simpl in *. repeat split; [done..| | |done].
        -- rewrite Hs. set_solver.
        -- lia.
      * set (i := default "" (raw_place_id r)) in *.
        destruct (IH (with_self (add_place (place_of_result i r)) m))
          as (m' & Hrun & ? & Hs & Hn & ?).
        { simpl. rewrite dom_insert_L. set_solver. }
        exists m'. simpl in *. repeat split; [done..| | |done].
        -- rewrite Hs. set_solver.
        -- rewrite map_size_insert_None in Hn; [lia|].
           apply not_elem_of_dom. set_solver.
    + destruct (IH (with_event (Logged WARNING
                      (PlaceWithoutPlaceId (default "unknown" (raw_name r)))) m))
        as (m' & Hrun & ? & Hs & Hn & ?); [done|].
      by exists m'.
Qed.

Lemma process_result_keeps_seen_place (result : RawResult) (i : string) (m : machine) :
  i ∈ seen_place_ids (self m) →
  i ∈ seen_place_ids (self (process_result result m).2) ∧
  places (self (process_result result m).2) !! i = places (self m) !! i.
Proof.
  intros Hi. rewrite process_result_cases. simpl.
  destruct (truthy (raw_place_id result)); [|done].
  case_bool_decide as Hseen; [done|]. simpl. split; [set_solver|].
  apply lookup_insert_ne. intros Heq. apply Hseen. by rewrite Heq.
Qed.

Lemma for_each_keeps_seen_place (rs : list RawResult) (i : string) (m : machine) :
  i ∈ seen_place_ids (self m) →
  places (self (for_each rs process_result m).2) !! i = places (self m) !! i.
Proof.
  revert m. induction rs as [|r rs IH]; intros m Hi; [done|].
  simpl. pose proof (process_result_cases r m) as Hr.
  rewrite (bind_ok _ _ _ _ _ Hr).
  destruct (process_result_keeps_seen_place r i m Hi) as [Hi' Hp].
  rewrite Hr in Hi', Hp. simpl in Hi', Hp.
  rewrite IH by done. exact Hp.
Qed.

Lemma for_each_other_ids (rs : list RawResult) (i : string) (m : machine) :
  Forall (λ r, raw_place_id r ≠ Some i) rs →
  i ∉ seen_place_ids (self m) →
  i ∉ seen_place_ids (self (for_each rs process_result m).2).
Proof.
  intros Hrs. revert m. induction Hrs as [|r rs Hr _ IH]; intros m Hi; [done|].
  simpl. pose proof (process_result_cases r m) as Hcase.
  rewrite (bind_ok _ _ _ _ _ Hcase). apply IH.
  destruct (truthy (raw_place_id r)) eqn:Hid; [|done].
  case_bool_decide; [done|]. simpl.
  destruct (raw_place_id r) as [j|]; [|done]. simpl. set_solver.
Qed.

Lemma for_each_app {S A} (l1 l2 : list A) (body : A → M S unit) (s : S) :
  for_each (l1 ++ l2) body s = (for_each l1 body ;; for_each l2 body) s.
Proof.
  revert s. induction l1 as [|x l1 IH]; intros s; simpl; [done|].
  rewrite bind_assoc. unfold mbind, M_mbind, M_bind.
  destruct (body x s) as [[[]|e|] s1]; [apply IH|done..].
Qed.

Lemma for_each_process_result_ok (rs : list RawResult) (m : machine) :
  for_each rs process_result m = (Ok tt, (for_each rs process_result m).2).
Proof.
  revert m. induction rs as [|r rs IH]; intros m; [done|].
  simpl. rewrite (bind_ok _ _ _ _ _ (process_result_cases r m)). apply IH.
Qed.

(** X3: first writer wins.  In any list of results, the Place kept for an id
    not seen before is the one built from the first result that carries it,
    whatever results of this or other ids come later. *)
Theorem first_sighting_wins
    (i : string) (before later : list RawResult) (r : RawResult) (m : machine) :
  i ≠ "" →
  i ∉ seen_place_ids (self m) →
  Forall (λ r', raw_place_id r' ≠ Some i) before →
  raw_place_id r = Some i →
  places (self (for_each (before ++ r :: later) process_result m).2) !! i
    = Some (place_of_result i r).
Proof.
  intros Hne Hnew Hbefore Hr.
  pose proof (for_each_other_ids before i m Hbefore Hnew) as Hstill.
  rewrite for_each_app.
  rewrite (bind_ok _ _ _ _ _ (for_each_process_result_ok before m)).
  set (m1 := (for_each before process_result m).2) in *.
  cbn [for_each].
  rewrite (bind_ok _ _ _ _ _ (process_result_cases r m1)).
  rewrite Hr. simpl.
  replace (negb (String.eqb i "")) with true
    by (symmetry; apply negb_true_iff, String.eqb_neq, Hne).
  rewrite bool_decide_eq_false_2 by done.
  rewrite for_each_keeps_seen_place by (simpl; set_solver).
  simpl. apply lookup_insert_eq.
Qed.

(** ** Search executor *)

Section Recovery.
Variable config : Config.
Variable api : Api.
Variable location : float * float.
Variable radius : Z.
Variable place_type : option string.

(** The last page of a query: no cursor, so nothing is slept. *)
Lemma try_block_last_page (fr : frame) (m : machine) (r : Response) :
  api (calls_made m) (build_kwargs location radius place_type (page_token fr))
    = Responds r →
  truthy (next_page_token r) = false →
  try_block config api location radius place_type (fr, m) =
    (Ok tt,
     (accept_page r fr,
      after m ([Called (build_kwargs location radius place_type (page_token fr))]
               ++ status_warning r) 1)).
Proof.
  intros Hapi Hlast. unfold try_block.
  rewrite (bind_inner_ok _ _ _ _ tt (with_self count_api_call m)) by done.
  rewrite bind_frame_gets.
  rewrite (bind_inner_ok _ _ _ _ r
             (after m [Called (build_kwargs location radius place_type
                                 (page_token fr))] 1))
    by (unfold places_nearby; simpl; by rewrite Hapi).
  unfold status_warning. rewrite Hlast.
  destruct (success_status (status r)).
  - rewrite bind_mret, bind_frame_modify. by rewrite app_nil_r.
  - erewrite bind_inner_ok by done. rewrite with_event_after, after_after.
    by rewrite bind_frame_modify.
Qed.

Lemma retry_loop_recovers (e : exn) (r : Response) (k : nat) :
  is_Exception e = true →
  truthy (next_page_token r) = false →
  ∀ (budget : nat) (retry_count : Z) (delay : Q) (fr : frame) (m : machine),
    (∀ j, (j < k)%nat →
          api (j + calls_made m)%nat
              (build_kwargs location radius place_type (page_token fr)) = Fails e) →
    api (k + calls_made m)%nat
        (build_kwargs location radius place_type (page_token fr)) = Responds r →
    retry_count + Z.of_nat k < MAX_RETRIES config →
    (k < budget)%nat →
    (0 <= delay)%Q →
    retry_loop config api location radius place_type budget retry_count delay (fr, m) =
      (Ok Broke,
       (accept_page r fr,
        after m
          (retried_events (build_kwargs location radius place_type (page_token fr))
             e k retry_count delay
           ++ [Called (build_kwargs location radius place_type (page_token fr))]
           ++ status_warning r) (S k))).
Proof.
  intros He Hlast. induction k as [|k IH];
    intros budget rc d fr m Hfail Hok Hmax Hbudget Hd;
    (destruct budget as [|budget]; [lia|]); simpl retry_loop;
    (replace (rc <? MAX_RETRIES config) with true by (symmetry; apply Z.ltb_lt; lia)).
  - apply try_except_ok.
    by rewrite (bind_ok _ _ _ _ _ (try_block_last_page fr m r Hok Hlast)).
  - erewrite try_except_caught; [| |exact He]; cycle 1.
    { eapply bind_raise. apply try_block_fails. apply (Hfail 0%nat). lia. }
    erewrite bind_inner_ok by done. rewrite with_event_after, after_after.
    replace (MAX_RETRIES config <=? rc + 1) with false
      by (symmetry; apply Z.leb_gt; lia).
    erewrite bind_inner_ok by (by apply sleep_ok). rewrite after_after.
    rewrite (IH budget (rc + 1) (d * 2)%Q fr).
    + rewrite after_after. simpl. do 3 f_equal. lia.
    + intros j Hj. simpl. replace (j + S (calls_made m))%nat
        with (S j + calls_made m)%nat by lia. apply Hfail. lia.
    + simpl. replace (k + S (calls_made m))%nat
        with (S k + calls_made m)%nat by lia. exact Hok.
    + lia.
    + lia.
    + apply Qmult_le_0_compat; [done|]. by compute.
Qed.
End Recovery.

Lemma retried_events_calls (q : Request) (e : exn) (k : nat) (retry_count : Z) (delay : Q) :
  calls_of (retried_events q e k retry_count delay) = replicate k q ∧
  sleeps_of Backoff (retried_events q e k retry_count delay) = doubling delay k ∧
  sleeps_of Cooldown (retried_events q e k retry_count delay) = [] ∧
  sleeps_of RateLimit (retried_events q e k retry_count delay) = [].
Proof.
  revert retry_count delay. induction k as [|k IH]; intros rc d; [done|].
  destruct (IH (rc + 1) (d * 2)%Q) as (Hc & Hb & Hcool & Hrate).
  simpl. unfold calls_of, sleeps_of in *. simpl. by rewrite Hc, Hb, Hcool, Hrate.
Qed.

Lemma calls_of_app (evs1 evs2 : list event) :
  calls_of (evs1 ++ evs2) = calls_of evs1 ++ calls_of evs2.
Proof. apply omap_app. Qed.

Lemma sleeps_of_app (site : sleep_site) (evs1 evs2 : list event) :
  sleeps_of site (evs1 ++ evs2) = sleeps_of site evs1 ++ sleeps_of site evs2.
Proof. apply omap_app. Qed.

Lemma answered_events (q : Request) (r : Response) :
  calls_of (Called q :: status_warning r) = [q] ∧
  ∀ site, sleeps_of site (Called q :: status_warning r) = [].
Proof. unfold status_warning. by destruct (success_status (status r)). Qed.

(** X4: a transient failure is recovered.  When the API raises on the first
    [k] attempts of a query, with [k] below MAX_RETRIES, and then answers
    with a page that has no cursor, the search returns that page's results
    after [k + 1] requests and [k] backoffs that start at the initial retry
    delay and double each time. *)
Theorem search_with_retry_recovers
    (config : Config) (api : Api) (location : float * float) (radius : Z)
    (place_type : option string) (fuel : nat) (m : machine)
    (e : exn) (r : Response) (k : nat) :
  (∀ j, (j < k)%nat →
        api (j + calls_made m)%nat (build_kwargs location radius place_type None)
          = Fails e) →
  is_Exception e = true →
  api (k + calls_made m)%nat (build_kwargs location radius place_type None)
    = Responds r →
  truthy (next_page_token r) = false →
  Z.of_nat k < MAX_RETRIES config →
  (0 <= INITIAL_RETRY_DELAY_SECONDS config)%Q →
  fuel ≠ 0%nat →
  ∃ evs,
    search_with_retry config api location radius place_type fuel m
      = (Ok (default [] (results r)), after m evs (S k)) ∧
    calls_of evs = replicate (S k) (build_kwargs location radius place_type None) ∧
    sleeps_of Backoff evs = doubling (INITIAL_RETRY_DELAY_SECONDS config) k ∧
    sleeps_of Cooldown evs = [] ∧
    sleeps_of RateLimit evs = [].
Proof.
  intros Hfail He Hok Hlast Hmax Hd Hfuel.
  destruct fuel as [|fuel]; [done|].
  eexists. split.
  - unfold search_with_retry, with_frame. simpl page_loop.
    rewrite (bind_ok _ _ _ _ _
               (retry_loop_recovers config api location radius place_type e r k
                  He Hlast (Z.to_nat (MAX_RETRIES config)) 0 _ new_frame m
                  Hfail Hok ltac:(lia) ltac:(lia) Hd)).
    rewrite bind_frame_gets. simpl. by rewrite Hlast.
  - destruct (retried_events_calls (build_kwargs location radius place_type None) e k 0
                (INITIAL_RETRY_DELAY_SECONDS config)) as (Hc & Hb & Hcool & Hrate).
    destruct (answered_events (build_kwargs location radius place_type None) r)
      as [Hac Has].
    simpl page_token.
    rewrite calls_of_app, !sleeps_of_app, Hc, Hb, Hcool, Hrate, Hac, !Has.
    rewrite !app_nil_r. split; [|done].
    simpl. by rewrite replicate_cons_app.
Qed.

(** X5: an exception that [except Exception] does not catch, such as the
    operator's KeyboardInterrupt, is not retried: raised by the first request
    of a search it leaves the search at once, after that one request and
    without any sleep, with the attempt counted. *)
Theorem search_with_retry_interrupted
    (config : Config) (api : Api) (location : float * float) (radius : Z)
    (place_type : option string) (fuel : nat) (m : machine) (e : exn) :
  api (calls_made m) (build_kwargs location radius place_type None) = Fails e →
  is_Exception e = false →
  0 < MAX_RETRIES config →
  fuel ≠ 0%nat →
  search_with_retry config api location radius place_type fuel m
    = (Raise e, after m [Called (build_kwargs location radius place_type None)] 1).
Proof.
  intros Hapi He Hmax Hfuel. destruct fuel as [|fuel]; [done|].
  unfold search_with_retry, with_frame. simpl page_loop.
  destruct (Z.to_nat (MAX_RETRIES config)) as [|budget] eqn:Hbudget; [lia|].
  erewrite bind_raise; cycle 1.
  { rewrite retry_loop_unfold.
    replace (0 <? MAX_RETRIES config) with true by (symmetry; apply Z.ltb_lt; lia).
    eapply try_except_passes; [|exact He].
    eapply bind_raise. by apply try_block_fails. }
  done.
Qed.

(** ** Extraction orchestrator *)

Lemma calls_balanced_with_event (c : Z) (l : level) (msg : log_msg) (m : machine) :
  calls_balanced c m → calls_balanced c (with_event (Logged l msg) m).
Proof.
  unfold calls_balanced. simpl. rewrite calls_of_app. simpl. by rewrite app_nil_r.
Qed.

Lemma keeps_balance_log (c : Z) (l : level) (msg : log_msg) :
  keeps (calls_balanced c) (log l msg).
Proof. apply keeps_modify. intros m. apply calls_balanced_with_event. Qed.

Lemma keeps_balance_sleep (c : Z) (site : sleep_site) (d : Q) :
  keeps (calls_balanced c) (sleep site d).
Proof.
  unfold sleep. destruct (Qle_bool 0 d); [|apply keeps_raise].
  apply keeps_modify. intros m. unfold calls_balanced. simpl.
  rewrite calls_of_app. simpl. by rewrite app_nil_r.
Qed.

Lemma keeps_balance_process_result (c : Z) (result : RawResult) :
  keeps (calls_balanced c) (process_result result).
Proof.
  intros m Hm. rewrite process_result_cases. simpl.
  destruct (truthy (raw_place_id result)); [|by apply calls_balanced_with_event].
  by case_bool_decide.
Qed.

Lemma keeps_balance_save_checkpoint (c : Z) : keeps (calls_balanced c) save_checkpoint.
Proof.
  apply keeps_bind; [by apply keeps_modify|]. intros _. apply keeps_balance_log.
Qed.

Section Balance.
Variable config : Config.
Variable api : Api.
Variable fuel : nat.
Variable c : Z.

Local Abbreviation balanced_in_search := (λ s : frame * machine, calls_balanced c s.2).

(** The counter is raised just before the request goes out. *)
Lemma keeps_balance_try_block (location : float * float) (radius : Z)
    (place_type : option string) :
  keeps balanced_in_search (try_block config api location radius place_type).
Proof.
  intros [fr m] Hm. simpl in Hm. unfold try_block.
  rewrite (bind_inner_ok _ _ _ _ tt (with_self count_api_call m)) by done.
  rewrite bind_frame_gets.
  set (q := build_kwargs location radius place_type (page_token fr)).
  assert (calls_balanced c (with_call q (with_self count_api_call m))) as Hcalled.
  { unfold calls_balanced in *. simpl. rewrite calls_of_app, length_app. simpl. lia. }
  destruct (api (calls_made m) q) as [r|e] eqn:Hapi.
  - rewrite (bind_inner_ok _ _ _ _ r (with_call q (with_self count_api_call m)))
      by (unfold places_nearby; simpl; by rewrite Hapi).
    revert Hcalled. generalize (with_call q (with_self count_api_call m)). intros m1 Hm1.
    assert (keeps balanced_in_search
              ((if success_status (status r) then mret tt
                else inner (log WARNING (ApiReturnedStatus (status r)))) ;;
               frame_modify (accept_page r) ;;
               if truthy (next_page_token r) then
                 inner (sleep Cooldown (PAGINATION_DELAY_SECONDS config)) ;;
                 inner (sleep RateLimit (DELAY_BETWEEN_REQUESTS_SECONDS config))
               else mret tt)) as Hrest.
    { apply keeps_bind.
      - destruct (success_status (status r));
          [apply keeps_mret|apply keeps_inner, keeps_balance_log].
      - intros _. apply keeps_bind; [by apply keeps_modify|]. intros _.
        destruct (truthy (next_page_token r)); [|apply keeps_mret].
        apply keeps_bind; [apply keeps_inner, keeps_balance_sleep|]. intros _.
        apply keeps_inner, keeps_balance_sleep. }
    exact (Hrest (fr, m1) Hm1).
  - erewrite bind_inner_raise
      by (unfold places_nearby; simpl; by rewrite Hapi).
    exact Hcalled.
Qed.

Lemma keeps_balance_retry_loop (location : float * float) (radius : Z)
    (place_type : option string) (budget : nat) :
  ∀ retry_count delay,
    keeps balanced_in_search
      (retry_loop config api location radius place_type budget retry_count delay).
Proof.
  induction budget as [|budget IH]; intros rc d; simpl;
    (destruct (rc <? MAX_RETRIES config); [|apply keeps_mret]).
  - apply keeps_out_of_fuel.
  - apply keeps_try_except.
    + apply keeps_bind; [apply keeps_balance_try_block|intros _; apply keeps_mret].
    + intros e. apply keeps_bind; [apply keeps_inner, keeps_balance_log|]. intros _.
      destruct (MAX_RETRIES config <=? rc + 1).
      * apply keeps_bind; [apply keeps_inner, keeps_balance_log|]. intros _.
        apply keeps_bind; [by apply keeps_gets|intros ?; apply keeps_mret].
      * apply keeps_bind; [apply keeps_inner, keeps_balance_sleep|intros _; apply IH].
Qed.

Lemma keeps_balance_search_with_retry (location : float * float) (radius : Z)
    (place_type : option string) :
  keeps (calls_balanced c)
    (search_with_retry config api location radius place_type fuel).
Proof.
  apply keeps_with_frame. induction fuel as [|n IH]; simpl; [apply keeps_out_of_fuel|].
  apply keeps_bind; [apply keeps_balance_retry_loop|]. intros [| |rs]; [| |apply keeps_mret];
    (apply keeps_bind; [by apply keeps_gets|]; intros token;
     destruct (truthy token); [apply IH|by apply keeps_gets]).
Qed.

Lemma keeps_balance_extract_all_places (grid : list GridCell) (start_from : Z) :
  keeps (calls_balanced c) (extract_all_places config api fuel grid start_from).
Proof.
  apply keeps_for_each. intros idx.
  apply keeps_bind; [apply keeps_pure|]. intros cell.
  apply keeps_bind; [by apply keeps_modify|]. intros _.
  apply keeps_bind.
  { apply keeps_for_each. intros place_type.
    apply keeps_bind; [apply keeps_balance_search_with_retry|]. intros results.
    apply keeps_bind; [apply keeps_for_each, keeps_balance_process_result|]. intros _.
    apply keeps_balance_sleep. }
  intros _. apply keeps_bind.
  - unfold checkpoint_due. destruct (ENABLE_CHECKPOINTING config); [|apply keeps_mret].
    destruct (CHECKPOINT_INTERVAL config =? 0); [apply keeps_raise|apply keeps_mret].
  - intros [|]; [apply keeps_balance_save_checkpoint|apply keeps_mret].
Qed.
End Balance.

(** X6: the API-call counter counts requests.  However an extraction over
    the grid ends (completed, failed, interrupted or out of budget), the
    counter has grown by exactly the number of requests issued meanwhile,
    failed attempts and retries included. *)
Theorem extract_all_places_counts_requests
    (config : Config) (api : Api) (fuel : nat) (grid : list GridCell)
    (start_from : Z) (m : machine) :
  let m' := (extract_all_places config api fuel grid start_from m).2 in
  total_api_calls (self m') - total_api_calls (self m) =
    Z.of_nat (length (calls_of (trace m'))) - Z.of_nat (length (calls_of (trace m))).
Proof.
  intros m'.
  pose proof (keeps_balance_extract_all_places config api fuel
                (total_api_calls (self m) - Z.of_nat (length (calls_of (trace m))))
                grid start_from m eq_refl) as Hbalance.
  fold m' in Hbalance. unfold calls_balanced in Hbalance. lia.
Qed.


(** X8: with an API key configured, a division count of zero stops [main]
    at grid generation: the exception leaves before the extractor is
    created and outside the [try], so neither handler runs, no checkpoint is
    written, no file is read and no request is issued. *)
Theorem main_zero_division
    (config : Config) (api : Api) (fuel : nat) (m : machine) :
  api_key_missing config = false →
  GRID_LAT_DIVISIONS config = 0 ∨ GRID_LNG_DIVISIONS config = 0 →
  main config api fuel m = (Raise ZeroDivisionError, m).
Proof.
  intros Hkey Hzero. unfold main. rewrite Hkey.
  replace (generate_grid config) with (@Raise (list GridCell) ZeroDivisionError);
    [done|].
  unfold generate_grid, float_div_int.
  destruct Hzero as [-> | ->]; [done|].
  by destruct (GRID_LAT_DIVISIONS config =? 0).
Qed.

(** ** A run against an API that answers *)

Lemma issues_mret {A} (a : A) : issues 0 (mret a : M machine A).
Proof. intros m. exists a, m. split; [done|lia]. Qed.

Lemma issues_bind {A B} (n k : nat) (c : M machine A) (f : A → M machine B) :
  issues n c → (∀ a, issues k (f a)) → issues (n + k) (c ≫= f).
Proof.
  intros Hc Hf m. destruct (Hc m) as (a & m1 & Hrun & Hn).
  destruct (Hf a m1) as (b & m2 & Hrun2 & Hk).
  exists b, m2. rewrite (bind_ok _ _ _ _ _ Hrun). split; [done|lia].
Qed.

Lemma issues_quiet (g : machine → machine) :
  (∀ m, calls_of (trace (g m)) = calls_of (trace m)) → issues 0 (modify g).
Proof. intros Hg m. exists tt, (g m). split; [done|]. rewrite Hg. lia. Qed.

Lemma issues_log (l : level) (msg : log_msg) : issues 0 (log l msg).
Proof.
  apply issues_quiet. intros m. simpl. rewrite calls_of_app. apply app_nil_r.
Qed.

Lemma issues_sleep (site : sleep_site) (d : Q) : (0 <= d)%Q → issues 0 (sleep site d).
Proof.
  intros Hd m. exists tt, (after m [Slept site d] 0). split; [by apply sleep_ok|].
  simpl. rewrite calls_of_app, length_app. simpl. lia.
Qed.

Lemma issues_for_each {A} (n : nat) (l : list A) (body : A → M machine unit) :
  (∀ x, x ∈ l → issues n (body x)) → issues (length l * n) (for_each l body).
Proof.
  induction l as [|x l IH]; intros Hbody; [apply issues_mret|].
  simpl. apply issues_bind; [apply Hbody; left|]. intros _.
  apply IH. intros y Hy. apply Hbody. by right.
Qed.

Lemma issues_process_result (result : RawResult) : issues 0 (process_result result).
Proof.
  intros m. eexists tt, _. split; [apply process_result_cases|].
  destruct (truthy (raw_place_id result)).
  - case_bool_decide; simpl; lia.
  - simpl. rewrite calls_of_app, length_app. simpl. lia.
Qed.

Lemma issues_save_checkpoint : issues 0 save_checkpoint.
Proof.
  change 0%nat with (0 + 0)%nat. apply issues_bind; [by apply issues_quiet|].
  intros _. apply issues_log.
Qed.

Section Healthy.
Variable config : Config.
Variable api : Api.
Variable fuel : nat.
Hypothesis api_healthy : healthy api.
Hypothesis retries_allowed : 0 < MAX_RETRIES config.
Hypothesis pages_allowed : fuel ≠ 0%nat.
Hypothesis delay_not_negative : (0 <= DELAY_BETWEEN_REQUESTS_SECONDS config)%Q.
Hypothesis interval_usable :
  ENABLE_CHECKPOINTING config = false ∨ CHECKPOINT_INTERVAL config ≠ 0.

Lemma issues_search_with_retry (location : float * float) (radius : Z)
    (place_type : option string) :
  issues 1 (search_with_retry config api location radius place_type fuel).
Proof.
  intros m. destruct fuel as [|pages]; [done|].
  destruct (api_healthy (calls_made m) (build_kwargs location radius place_type None))
    as (r & Hapi & Hlast).
  exists (default [] (results r)),
    (after m ([Called (build_kwargs location radius place_type None)]
              ++ status_warning r) 1).
  split.
  - unfold search_with_retry, with_frame. simpl page_loop.
    destruct (Z.to_nat (MAX_RETRIES config)) as [|budget] eqn:Hbudget; [lia|].
    erewrite bind_ok; cycle 1.
    { rewrite retry_loop_unfold.
      replace (0 <? MAX_RETRIES config) with true by (symmetry; apply Z.ltb_lt; lia).
      apply try_except_ok.
      by rewrite (bind_ok _ _ _ _ _
                    (try_block_last_page config api location radius place_type
                       new_frame m r Hapi Hlast)). }
    cbv beta iota. rewrite bind_frame_gets. simpl. by rewrite Hlast.
  - simpl. rewrite calls_of_app, length_app.
    destruct (answered_events (build_kwargs location radius place_type None) r)
      as [-> _].
    done.
Qed.

Lemma issues_search_grid_cell (cell : GridCell) :
  issues (length (search_types config)) (search_grid_cell config api fuel cell).
Proof.
  unfold search_grid_cell.
  replace (length (search_types config)) with (length (search_types config) * 1)%nat
    by lia.
  apply issues_for_each. intros place_type _.
  change 1%nat with (1 + (0 + 0))%nat.
  apply issues_bind; [apply issues_search_with_retry|]. intros results.
  apply issues_bind; [|intros _; by apply issues_sleep].
  replace 0%nat with (length results * 0)%nat by lia.
  apply issues_for_each. intros result _. apply issues_process_result.
Qed.

Lemma issues_checkpoint_due (idx : Z) : issues 0 (checkpoint_due config idx).
Proof.
  unfold checkpoint_due. destruct interval_usable as [-> | Hinterval].
  - apply issues_mret.
  - destruct (ENABLE_CHECKPOINTING config); [|apply issues_mret].
    apply Z.eqb_neq in Hinterval. rewrite Hinterval. apply issues_mret.
Qed.

Lemma issues_extract_all_places (grid : list GridCell) (start_from : Z) :
  0 ≤ start_from →
  issues ((length grid - Z.to_nat start_from) * length (search_types config))
    (extract_all_places config api fuel grid start_from).
Proof.
  intros Hstart. unfold extract_all_places.
  replace (length grid - Z.to_nat start_from)%nat
    with (length (py_range2 start_from (Z.of_nat (length grid))))
    by (unfold py_range2; rewrite length_seqZ; lia).
  apply issues_for_each. intros idx Hidx.
  unfold py_range2 in Hidx. apply elem_of_seqZ in Hidx.
  assert (∃ cell, py_index grid idx = Ok cell) as [cell Hcell].
  { unfold py_index.
    replace (idx <? 0) with false by (symmetry; apply Z.ltb_ge; lia).
    replace ((idx <? 0) || (Z.of_nat (length grid) <=? idx)) with false
      by (symmetry; apply orb_false_iff; split; [apply Z.ltb_ge|apply Z.leb_gt]; lia).
    destruct (lookup_lt_is_Some_2 grid (Z.to_nat idx)) as [cell Hcell]; [lia|].
    exists cell. by rewrite Hcell. }
  rewrite Hcell.
  intros m. rewrite bind_lift_ok, bind_modify.
  destruct (issues_bind (length (search_types config)) 0 _ _
              (issues_search_grid_cell cell)
              (λ _, issues_bind 0 0 _ _ (issues_checkpoint_due idx)
                      (λ due : bool, if due return issues 0 (if due then _ else _)
                                     then issues_save_checkpoint
                                     else issues_mret tt))
              (with_self (set_current_cell_index idx) m))
    as (a & m' & Hrun & Hn).
  exists a, m'. split; [exact Hrun|]. simpl in Hn. lia.
Qed.
End Healthy.

(** X9: on an API that answers, an extraction from cell [start_from] on
    returns without raising, whatever the state it starts in, after exactly
    one request for each remaining cell and each search type. *)
Theorem extract_all_places_on_healthy_api
    (config : Config) (api : Api) (fuel : nat) (grid : list GridCell)
    (start_from : Z) (m : machine) :
  healthy api →
  0 < MAX_RETRIES config →
  fuel ≠ 0%nat →
  (0 <= DELAY_BETWEEN_REQUESTS_SECONDS config)%Q →
  ENABLE_CHECKPOINTING config = false ∨ CHECKPOINT_INTERVAL config ≠ 0 →
  0 ≤ start_from →
  ∃ m',
    extract_all_places config api fuel grid start_from m = (Ok tt, m') ∧
    length (calls_of (trace m')) =
      (length (calls_of (trace m))
       + (length grid - Z.to_nat start_from) * length (search_types config))%nat.
Proof.
  intros Hapi Hmax Hfuel Hdelay Hinterval Hstart.
  destruct (issues_extract_all_places config api fuel Hapi Hmax Hfuel Hdelay Hinterval
              grid start_from Hstart m) as ([] & m' & Hrun & Hn).
  by exists m'.
Qed.

(** X10: a run of [main] with an API key that the client accepts and without
    a checkpoint file, on an API that answers, exits with status 0: the grid
    is generated, every cell is searched once for each search type, and the
    output file holds the collected Places. *)
Theorem main_completes_on_healthy_api
    (config : Config) (api : Api) (fuel : nat) (m : machine) :
  api_key_missing config = false →
  Client (API_KEY config) = Ok tt →
  healthy api →
  0 < MAX_RETRIES config →
  fuel ≠ 0%nat →
  (0 <= DELAY_BETWEEN_REQUESTS_SECONDS config)%Q →
  ENABLE_CHECKPOINTING config = false ∨ CHECKPOINT_INTERVAL config ≠ 0 →
  GRID_LAT_DIVISIONS config ≠ 0 →
  GRID_LNG_DIVISIONS config ≠ 0 →
  checkpoint_file m = Absent →
  ∃ grid m',
    generate_grid config = Ok grid ∧
    main config api fuel m = (Ok 0, m') ∧
    length (calls_of (trace m')) =
      (length (calls_of (trace m)) + length grid * length (search_types config))%nat ∧
    output_file m' = Some (places (self m')).
Proof.
  intros Hkey Hclient Hapi Hmax Hfuel Hdelay Hinterval Hrows Hcolumns Hfile.
  pose proof (generate_grid_steps config Hrows Hcolumns) as Hgrid.
  revert Hgrid. generalize
    (row ← py_range (GRID_LAT_DIVISIONS config);
     col ← py_range (GRID_LNG_DIVISIONS config);
     [grid_cell_at config
        ((BBOX_NORTH config - BBOX_SOUTH config)
           / float_of_int (GRID_LAT_DIVISIONS config))%float
        ((BBOX_EAST config - BBOX_WEST config)
           / float_of_int (GRID_LNG_DIVISIONS config))%float
        row col]).
  intros grid Hgrid. exists grid.
  set (m0 := with_self (λ _, new_extractor) m).
  destruct (issues_extract_all_places config api fuel Hapi Hmax Hfuel Hdelay Hinterval
              grid 0 ltac:(lia) m0) as ([] & m1 & Hrun & Hn).
  assert (∃ m', main config api fuel m = (Ok 0, m') ∧
                trace m' = trace m1 ++ drop (length (trace m1)) (trace m') ∧
                calls_of (drop (length (trace m1)) (trace m')) = [] ∧
                self m' = self m1 ∧ output_file m' = Some (places (self m1)))
    as (m' & Hmain & Htrace & Hquiet & Hself & Hout).
  { unfold main. rewrite Hkey, Hgrid, bind_lift_ok, Hclient, bind_lift_ok, bind_modify.
    fold m0.
    assert ((if ENABLE_CHECKPOINTING config
             then loaded_resume ← load_checkpoint; mret (default 0 loaded_resume)
             else mret 0) m0 = (Ok 0, m0)) as Hresume.
    { destruct (ENABLE_CHECKPOINTING config); [|done].
      by rewrite (bind_ok _ _ _ _ _ (load_checkpoint_absent m0 Hfile)). }
    rewrite (bind_ok _ _ _ _ _ Hresume). unfold try_main.
    rewrite (bind_ok _ _ _ _ _ Hrun). unfold save_final_output.
    rewrite bind_assoc, bind_modify, bind_assoc, bind_gets, bind_log.
    destruct (ENABLE_CHECKPOINTING config) eqn:Henabled.
    - unfold remove_checkpoint_file. rewrite bind_assoc, bind_gets.
      simpl (checkpoint_file _). destruct (checkpoint_file m1) eqn:Hleft.
      + rewrite bind_mret, bind_log. eexists. split; [reflexivity|]. simpl.
        rewrite <- app_assoc, drop_app_length. by repeat split.
      + rewrite bind_assoc, bind_modify, bind_log, bind_log.
        eexists. split; [reflexivity|]. simpl.
        rewrite <- !app_assoc, drop_app_length. by repeat split.
      + rewrite bind_assoc, bind_modify, bind_log, bind_log.
        eexists. split; [reflexivity|]. simpl.
        rewrite <- !app_assoc, drop_app_length. by repeat split.
    - rewrite bind_mret, bind_log. eexists. split; [reflexivity|]. simpl.
      rewrite <- app_assoc, drop_app_length. by repeat split. }
  exists m'. split; [done|]. split; [exact Hmain|]. split.
  - rewrite Htrace, calls_of_app, Hquiet, app_nil_r, Hn. simpl. lia.
  - by rewrite Hout, Hself.
Qed.

(* ====================================================================== *)
(** * The places viewer *)

Lemma ids_given (ids : list string) :
  ids ≠ [] → bool_decide ((list_to_set ids : gset string) = ∅) = false.
Proof.
  intros Hids. apply bool_decide_eq_false_2. destruct ids as [|i ids]; [done|].
  simpl. set_solver.
Qed.

Lemma remaining_places_filter (ids_to_delete : gset string)
    (places : list (gmap string jvalue)) :
  Forall (λ p, has_hashable_id p = true) places →
  remaining_places ids_to_delete places
    = Ok (filter (λ p, to_delete ids_to_delete p = false) places).
Proof.
  induction 1 as [|p places Hp _ IH]; [done|].
  simpl. rewrite IH. unfold has_hashable_id in Hp.
  unfold not_to_delete.
  destruct (p !! "id") as [[| |i|]|] eqn:Hid; try done.
  - rewrite filter_cons_True; [done|]. unfold to_delete. by rewrite Hid.
  - rewrite filter_cons_True; [done|]. unfold to_delete. by rewrite Hid.
  - simpl. case_bool_decide as Hi.
    + rewrite filter_cons_True; [done|]. unfold to_delete. rewrite Hid.
      by apply bool_decide_eq_false_2.
    + rewrite filter_cons_False; [done|]. unfold to_delete. rewrite Hid.
      by rewrite bool_decide_eq_true_2.
Qed.

Lemma delete_places_run (ids : list string) (places : list (gmap string jvalue)) :
  ids ≠ [] →
  Forall (λ p, has_hashable_id p = true) places →
  delete_places (Some ids) (Listing places) =
    (Ok (Deleted
           (Z.of_nat (length places)
            - Z.of_nat (length (filter (λ p, to_delete (list_to_set ids) p = false)
                                       places)))
           (Z.of_nat (length (filter (λ p, to_delete (list_to_set ids) p = false)
                                     places)))),
     Listing (filter (λ p, to_delete (list_to_set ids) p = false) places)).
Proof.
  intros Hids Hplaces. unfold delete_places. simpl. rewrite ids_given by done.
  unfold load_places. rewrite bind_assoc, bind_gets. simpl. rewrite bind_mret.
  by rewrite remaining_places_filter.
Qed.

(** X11: deleting by id.  When ids are given and every place of the file has
    an id that can be looked up, [delete_places] rewrites the file to the
    places whose id is not among them, in their old order, and reports
    counts that add up to the old number of places; asked again with the same
    ids it deletes nothing and leaves the file as it is. *)
Theorem delete_places_removes (ids : list string) (places : list (gmap string jvalue)) :
  ids ≠ [] →
  Forall (λ p, has_hashable_id p = true) places →
  let remaining := filter (λ p, to_delete (list_to_set ids) p = false) places in
  ∃ deleted_count,
    delete_places (Some ids) (Listing places)
      = (Ok (Deleted deleted_count (Z.of_nat (length remaining))), Listing remaining) ∧
    0 ≤ deleted_count ∧
    deleted_count + Z.of_nat (length remaining) = Z.of_nat (length places) ∧
    remaining `sublist_of` places ∧
    delete_places (Some ids) (Listing remaining)
      = (Ok (Deleted 0 (Z.of_nat (length remaining))), Listing remaining).
Proof.
  intros Hids Hplaces remaining. eexists. split; [by apply delete_places_run|].
  fold remaining.
  pose proof (length_filter (λ p, to_delete (list_to_set ids) p = false) places).
  fold remaining in H.
  split; [lia|]. split; [lia|]. split; [apply sublist_filter|].
  rewrite delete_places_run; [|done|].
  - replace (filter (λ p, to_delete (list_to_set ids) p = false) remaining)
      with remaining; [by rewrite Z.sub_diag|].
    unfold remaining. by rewrite list_filter_filter_l.
  - apply Forall_forall. intros p Hp.
    apply list_elem_of_filter in Hp as [_ Hp].
    by apply (proj1 (Forall_forall _ _) Hplaces).
Qed.

(** X12: [delete_places] changes the places file only when it answers with
    the counts of a deletion.  When it answers 400, or raises (the file is no
    JSON, a place has no ['id'] key or an unhashable one), the file is as it
    was. *)
Theorem delete_places_failure_keeps_file (ids : option (list string)) (f : places_file) :
  let run := delete_places ids f in
  match run.1 with
  | Ok (Deleted _ _) => True
  | _ => run.2 = f
  end.
Proof.
  unfold delete_places. simpl. case_bool_decide; [done|].
  unfold load_places. rewrite bind_assoc, bind_gets. simpl.
  destruct f as [| |places]; simpl; rewrite ?bind_mret; simpl; try done.
  by destruct (remaining_places (list_to_set (default [] ids)) places).
Qed.

Lemma dict_items_no_id (p : Place) : dict_items (to_dict p) !! "id" = None.
Proof. unfold dict_items, to_dict, put_key. simpl. by simplify_map_eq. Qed.

(** X13: the viewer looks places up under the key ['id'], which the objects
    written by the extractor ([to_dict]: place_id, name, types, latitude,
    longitude) do not have.  On a file of such objects every deletion request
    that names an id raises [KeyError] and leaves the file as it is. *)
Theorem delete_places_on_extractor_output (ids : list string) (ps : list Place) :
  ids ≠ [] → ps ≠ [] →
  delete_places (Some ids) (Listing ((λ p, dict_items (to_dict p)) <$> ps))
    = (Raise (KeyError "id"), Listing ((λ p, dict_items (to_dict p)) <$> ps)).
Proof.
  intros Hids Hps. unfold delete_places. simpl. rewrite ids_given by done.
  unfold load_places. rewrite bind_assoc, bind_gets. simpl. rewrite bind_mret.
  destruct ps as [|p ps]; [done|].
  simpl. unfold not_to_delete. by rewrite dict_items_no_id.
Qed.

Lemma occurrences_snoc (t x : string) (l : list string) :
  occurrences t (l ++ [x]) = (occurrences t l + if decide (x = t) then 1 else 0)%nat.
Proof.
  unfold occurrences. rewrite filter_app, length_app. f_equal.
  case_decide; [by rewrite filter_cons_True|by rewrite filter_cons_False].
Qed.

(** A dictionary that holds, for the tags of [l], how often each occurs. *)
Local Abbreviation tallies counts l :=
  (∀ t : string,
     (counts : gmap string nat) !! t =
       if decide (occurrences t l = 0%nat) then None else Some (occurrences t l)).

Lemma count_type_tallies (counts : gmap string nat) (l : list string) (x : string) :
  tallies counts l → tallies (count_type counts x) (l ++ [x]).
Proof.
  intros Hcounts t. unfold count_type. rewrite occurrences_snoc.
  destruct (decide (x = t)) as [->|Hne].
  - rewrite lookup_insert_eq, Hcounts.
    destruct (decide (occurrences t l = 0%nat)) as [->|?]; simpl.
    + done.
    + rewrite decide_False by lia. f_equal.
  - rewrite lookup_insert_ne by done. rewrite Hcounts, Nat.add_0_r. done.
Qed.

Lemma foldl_count_type_tallies (ts : list string) :
  ∀ (counts : gmap string nat) (l : list string),
    tallies counts l → tallies (foldl count_type counts ts) (l ++ ts).
Proof.
  induction ts as [|x ts IH]; intros counts l Hcounts; simpl.
  - by rewrite app_nil_r.
  - replace (l ++ x :: ts) with ((l ++ [x]) ++ ts) by by rewrite <- app_assoc.
    apply IH. by apply count_type_tallies.
Qed.

Lemma count_types_tallies (places : list (gmap string jvalue)) :
  Forall (λ place, has_listed_types place = true) places →
  ∀ (counts : gmap string nat) (l : list string),
    tallies counts l →
    ∃ counts', count_types counts places = Ok counts' ∧
               tallies counts' (l ++ tags_of places).
Proof.
  induction 1 as [|place places Hplace _ IH]; intros counts l Hcounts.
  - exists counts. split; [done|]. unfold tags_of. simpl. by rewrite app_nil_r.
  - simpl. unfold has_listed_types in Hplace. unfold types_of, tags_of.
    simpl. fold (tags_of places).
    destruct (place !! "types") as [[| | |ts]|]; try done; simpl.
    + destruct (IH _ (l ++ ts) (foldl_count_type_tallies ts counts l Hcounts))
        as (counts' & Hrun & Htally).
      exists counts'. split; [done|]. by rewrite app_assoc.
    + by apply IH.
Qed.

(** X14: the statistics count tags.  On a file whose places have arrays of
    strings as ['types'] (or no such key), [get_stats] never raises, leaves
    the file as it is, and reports the number of places and, for each tag,
    how often it occurs over all places; tags that do not occur have no
    entry. *)
Theorem get_stats_counts_tags (places : list (gmap string jvalue)) :
  Forall (λ place, has_listed_types place = true) places →
  ∃ type_counts,
    get_stats (Listing places)
      = (Ok (Statistics (length places) type_counts), Listing places) ∧
    ∀ t, type_counts !! t =
           if decide (occurrences t (tags_of places) = 0%nat) then None
           else Some (occurrences t (tags_of places)).
Proof.
  intros Hplaces.
  destruct (count_types_tallies places Hplaces ∅ []) as (counts & Hrun & Htally).
  { intros t. by rewrite lookup_empty. }
  exists counts. split; [|exact Htally].
  unfold get_stats, load_places. rewrite bind_assoc, bind_gets. simpl.
  rewrite bind_mret. by rewrite Hrun.
Qed.

(** X15: behind [requires_auth], [delete_places] changes the places file
    only for a request that carries the configured user name and password,
    and then only when it answers with the counts of a deletion: without
    credentials or with others, with no ids, and when the route raises, the
    file is as it was. *)
Theorem secure_delete_places_guarded
    (USERNAME PASSWORD : string) (auth : option (string * string))
    (ids : option (list string)) (f : places_file) :
  let run := requires_auth USERNAME PASSWORD auth (delete_places ids) f in
  run.2 = f ∨
  (auth = Some (USERNAME, PASSWORD) ∧
   ∃ deleted_count remaining_count,
     run.1 = Ok (Deleted deleted_count remaining_count)).
Proof.
  unfold requires_auth, check_auth. destruct auth as [[u p]|]; [|by left].
  do 2 case_bool_decide; simpl; subst; [|by left..].
  unfold delete_places. simpl. case_bool_decide; [by left|].
  unfold load_places. rewrite bind_assoc, bind_gets. simpl.
  destruct f as [| |places]; simpl; rewrite ?bind_mret; simpl;
    [right; split; [done|by eexists _, _]|by left|].
  destruct (remaining_places (list_to_set (default [] ids)) places); simpl;
    [right; split; [done|by eexists _, _]|by left..].
Qed.

(* ====================================================================== *)
(** * The further properties on concrete inputs *)

Lemma places_values_unique_ids_witness :
  NoDup (place_id <$> places_values (self collected)) ∧
  length (places_values (self collected)) = size (places (self collected)).
Proof.
  apply (places_values_unique_ids (self collected)).
  unfold keyed_by_id. apply (bool_decide_unpack _). vm_compute. exact I.
Defined.

Lemma ingest_accounting_witness :
  let m := boot "t0" Absent None in
  let rs := nameless :: cafe_first :: cafe_later in
  ∃ m',
    for_each rs process_result m = (Ok tt, m') ∧
    places_seen m' ∧
    seen_place_ids (self m') = seen_place_ids (self m) ∪ list_to_set (ids_of rs) ∧
    Z.of_nat (size (places (self m'))) + total_duplicates_skipped (self m') =
      Z.of_nat (size (places (self m))) + total_duplicates_skipped (self m)
        + Z.of_nat (length (ids_of rs)) ∧
    total_api_calls (self m') = total_api_calls (self m).
Proof.
  intros m rs. apply (ingest_accounting rs m).
  unfold places_seen. simpl. by rewrite dom_empty_L.
Defined.

Lemma first_sighting_wins_witness :
  places (self (for_each ([raw (Some "id-kiosk") (Some "Kiosk")]
                            ++ cafe_first :: cafe_later)
                  process_result (boot "t0" Absent None)).2) !! "id-cafe"
    = Some (place_of_result "id-cafe" cafe_first).
Proof.
  apply (first_sighting_wins "id-cafe" [raw (Some "id-kiosk") (Some "Kiosk")]
           cafe_later cafe_first (boot "t0" Absent None)).
  - discriminate.
  - simpl. apply not_elem_of_empty.
  - constructor; [discriminate|constructor].
  - reflexivity.
Defined.

Lemma search_with_retry_recovers_witness :
  ∃ evs,
    search_with_retry default_config flaky_api centre 1000 None 3
        (boot "t0" Absent None)
      = (Ok (default [] (results (page [raw (Some "id-kiosk") (Some "Kiosk")] None))),
         after (boot "t0" Absent None) evs 3) ∧
    calls_of evs = replicate 3 (build_kwargs centre 1000 None None) ∧
    sleeps_of Backoff evs = doubling 1 2 ∧
    sleeps_of Cooldown evs = [] ∧
    sleeps_of RateLimit evs = [].
Proof.
  apply (search_with_retry_recovers default_config flaky_api centre 1000 None 3
           (boot "t0" Absent None) (ApiError "timeout")
           (page [raw (Some "id-kiosk") (Some "Kiosk")] None) 2).
  - intros j Hj. destruct j as [|[|j]]; [reflexivity..|lia].
  - reflexivity.
  - reflexivity.
  - reflexivity.
  - reflexivity.
  - discriminate.
  - discriminate.
Defined.

Lemma search_with_retry_interrupted_witness :
  let m := with_call (build_kwargs centre 1000 (Some "cafe") None)
             (boot "t0" Absent None) in
  search_with_retry default_config interrupted_api centre 1000 None 3 m
    = (Raise KeyboardInterrupt, after m [Called (build_kwargs centre 1000 None None)] 1).
Proof.
  intros m.
  apply (search_with_retry_interrupted default_config interrupted_api centre 1000
           None 3 m KeyboardInterrupt).
  - reflexivity.
  - reflexivity.
  - reflexivity.
  - discriminate.
Defined.


(** Without a key in the environment the run ends at once with status 1,
    before anything is read, written or requested. *)
Lemma main_without_api_key :
  main key_not_set two_places_api 3 (boot "t0" Absent None)
    = (Ok 1, boot "t0" Absent None).
Proof. reflexivity. Qed.

Lemma main_zero_division_witness :
  main (configured 0 10 ["cafe"]) two_places_api 3 (boot "t0" Absent None)
    = (Raise ZeroDivisionError, boot "t0" Absent None).
Proof.
  apply (main_zero_division (configured 0 10 ["cafe"]) two_places_api 3
           (boot "t0" Absent None)).
  - reflexivity.
  - left. reflexivity.
Defined.

Lemma extract_all_places_on_healthy_api_witness :
  ∃ m',
    extract_all_places one_cell_config two_places_api 3
        [only_cell] 0
        (boot "t0" Absent None)
      = (Ok tt, m') ∧
    length (calls_of (trace m')) = (0 + (1 - Z.to_nat 0) * 2)%nat.
Proof.
  apply (extract_all_places_on_healthy_api one_cell_config two_places_api 3
           [only_cell] 0
           (boot "t0" Absent None)).
  - intros n q. unfold two_places_api. destruct (req_type q); by eexists.
  - reflexivity.
  - discriminate.
  - discriminate.
  - right. discriminate.
  - reflexivity.
Defined.

Lemma main_completes_on_healthy_api_witness :
  ∃ grid m',
    generate_grid one_cell_config = Ok grid ∧
    main one_cell_config two_places_api 3 (boot "t0" Absent None) = (Ok 0, m') ∧
    length (calls_of (trace m')) = (0 + length grid * 2)%nat ∧
    output_file m' = Some (places (self m')).
Proof.
  apply (main_completes_on_healthy_api one_cell_config two_places_api 3
           (boot "t0" Absent None)).
  - reflexivity.
  - reflexivity.
  - intros n q. unfold two_places_api. destruct (req_type q); by eexists.
  - reflexivity.
  - discriminate.
  - discriminate.
  - right. discriminate.
  - discriminate.
  - discriminate.
  - reflexivity.
Defined.

Lemma delete_places_removes_witness :
  let remaining := filter (λ p, to_delete (list_to_set ["b"]) p = false)
                     viewer_listing in
  ∃ deleted_count,
    delete_places (Some ["b"]) (Listing viewer_listing)
      = (Ok (Deleted deleted_count (Z.of_nat (length remaining))), Listing remaining) ∧
    0 ≤ deleted_count ∧
    deleted_count + Z.of_nat (length remaining) = Z.of_nat (length viewer_listing) ∧
    remaining `sublist_of` viewer_listing ∧
    delete_places (Some ["b"]) (Listing remaining)
      = (Ok (Deleted 0 (Z.of_nat (length remaining))), Listing remaining).
Proof.
  apply (delete_places_removes ["b"] viewer_listing).
  - discriminate.
  - repeat (constructor; [by vm_compute|]). constructor.
Defined.

Lemma delete_places_on_extractor_output_witness :
  delete_places (Some ["id-cafe"])
      (Listing ((λ p, dict_items (to_dict p)) <$> places_values (self collected)))
    = (Raise (KeyError "id"),
       Listing ((λ p, dict_items (to_dict p)) <$> places_values (self collected))).
Proof.
  apply (delete_places_on_extractor_output ["id-cafe"] (places_values (self collected))).
  - discriminate.
  - by vm_compute.
Defined.

Lemma get_stats_counts_tags_witness :
  ∃ type_counts,
    get_stats (Listing viewer_listing)
      = (Ok (Statistics (length viewer_listing) type_counts), Listing viewer_listing) ∧
    ∀ t, type_counts !! t =
           if decide (occurrences t (tags_of viewer_listing) = 0%nat) then None
           else Some (occurrences t (tags_of viewer_listing)).
Proof.
  apply (get_stats_counts_tags viewer_listing).
  repeat (constructor; [by vm_compute|]). constructor.
Defined.
